(** * TalkToCursor: the configuration store, the speech queue and the
    settings API, embedded from [src/config.ts], [src/index.ts] and
    [src/settings-server.ts].

    JavaScript objects are finite maps from property names to JSON values
    ([gmap string json]); [undefined] is the absence of a binding
    ([option json], [None] for [undefined]).  Exceptions are the [Throw]
    branch of a small error monad.  The file system, the clock, the
    synthesis gateway and the audio player are the environment: every
    outcome they can produce is an input of the model. *)

From Stdlib Require Import QArith.
From stdpp Require Import gmap strings list fin_maps pretty.

Close Scope Q_scope.
Local Open Scope string_scope.
Local Open Scope list_scope.
Local Open Scope nat_scope.
#[local] Set Warnings "-register-all".

(* ===================================================================== *)
(** ** JSON values and the fragment of JavaScript the sources use        *)
(* ===================================================================== *)

Module Json.

(** A value produced by [JSON.parse].  [JNum q] is a finite number, kept
    exact (the sources never compute with numbers); [JInf] is the
    [Infinity] or [-Infinity] that [JSON.parse] gives for a literal beyond
    the range of numbers, such as 1e400. *)
Inductive json : Type :=
| JNull
| JBool (b : bool)
| JNum (q : Q)
| JStr (s : string)
| JArr (l : list json)
| JObj (o : gmap string json)
| JInf (negative : bool).

(** What [JSON.parse] reads from the text [JSON.stringify] makes of [v]:
    [v] itself, but for the infinite numbers in it, at any depth, which
    are written as [null]. *)
Fixpoint reread (v : json) : json :=
  match v with
  | JInf _ => JNull
  | JArr l => JArr (reread <$> l)
  | JObj o => JObj (reread <$> o)
  | _ => v
  end.

(** The number of nodes of a value. *)
Fixpoint json_size (v : json) : nat :=
  match v with
  | JArr l => S (sum_list (json_size <$> l))
  | JObj o => S (map_fold (λ _ x n, (json_size x + n)%nat) 0%nat o)
  | _ => 1%nat
  end.

(** Completion of a JavaScript computation: a value, or a thrown error
    with its message. *)
Inductive exn (A : Type) : Type :=
| Normal (a : A)
| Throw (msg : string).
Arguments Normal {A} a.
Arguments Throw {A} msg.

#[global] Instance exn_bind : MBind exn := λ A B k m,
  match m with
  | Normal a => k a
  | Throw e => Throw e
  end.

(** ToBoolean on a value that may be [undefined]. *)
Definition truthy (v : option json) : bool :=
  match v with
  | None => false
  | Some JNull => false
  | Some (JBool b) => b
  | Some (JNum q) => negb (Qnum q =? 0)%Z
  | Some (JStr s) => negb (String.eqb s "")
  | Some (JArr _) => true
  | Some (JObj _) => true
  | Some (JInf _) => true
  end.

(** [a || b] where [b] is always defined. *)
Definition or_else (a : option json) (b : json) : json :=
  match a with
  | Some x => if truthy a then x else b
  | None => b
  end.

(** The own enumerable properties copied by object spread [{...v}]:
    the bindings of an object, the indices of an array or of a string,
    nothing for [null], a boolean or a number. *)
Definition own_props (v : json) : gmap string json :=
  match v with
  | JObj o => o
  | JArr l => list_to_map (imap (λ i x, (pretty i, x)) l)
  | JStr s =>
      list_to_map
        (imap (λ i c, (pretty i, JStr (String c EmptyString)))
              (String.list_ascii_of_string s))
  | _ => ∅
  end.

(** [{...base, ...v}]: later properties win. *)
Definition spread (base : gmap string json) (v : json) : gmap string json :=
  own_props v ∪ base.

(** [v.k] for a property name [k] that no prototype defines (all the names
    read by the sources are such): a [TypeError] on [null], the binding on
    an object, [undefined] on anything else. *)
Definition get_prop (v : json) (k : string) : exn (option json) :=
  match v with
  | JNull => Throw "Cannot read properties of null"
  | JObj o => Normal (o !! k)
  | _ => Normal None
  end.

End Json.
Export Json.

(* ===================================================================== *)
(** ** The file system                                                   *)
(* ===================================================================== *)

Module Fs.

(** A file as the sources can observe it: [readFileSync] throws on it, or
    its text makes [JSON.parse] throw, or its text parses to [v]. *)
Inductive file : Type :=
| Unreadable
| Malformed
| JsonText (v : json).

(** Outcome of an operation of the environment (a write, a gateway call,
    a playback): it completes; or it fails before it has had any effect;
    or it fails after it has begun.  Of the error the model keeps the
    message that the [catch] blocks compute from it. *)
Inductive outcome : Type :=
| Fulfilled
| Failed (reason : string)
| Aborted (reason : string).

(** The message of a failure. *)
Definition failure (r : outcome) : option string :=
  match r with
  | Fulfilled => None
  | Failed reason => Some reason
  | Aborted reason => Some reason
  end.

(** [writeFileSync(path, JSON.stringify(v, null, 2), "utf-8")] when the
    environment answers [w].  The call opens the file with the flag [w],
    which truncates it, and then writes the text.  When it completes, the
    file reads back as [reread v].  When the open fails ([Failed]) the
    file system is as before.  When the write fails after the open
    ([Aborted]) the file is left empty or with a beginning of the text:
    the sources write objects only, and no proper beginning of the text of
    an object is JSON.  The result is the completion of the call and the
    file system it leaves. *)
Definition writeFileSync (w : outcome) (path : string) (v : json)
    (fs : gmap string file) : exn unit * gmap string file :=
  match w with
  | Fulfilled => (Normal (), <[path := JsonText (reread v)]> fs)
  | Failed reason => (Throw reason, fs)
  | Aborted reason => (Throw reason, <[path := Malformed]> fs)
  end.

Definition readFileSync (f : file) : exn file :=
  match f with
  | Unreadable => Throw "EACCES"
  | _ => Normal f
  end.

Definition JSON_parse (f : file) : exn json :=
  match f with
  | JsonText v => Normal v
  | _ => Throw "SyntaxError"
  end.

End Fs.
Export Fs.

(* ===================================================================== *)
(** ** config.ts                                                         *)
(* ===================================================================== *)

Module Config.

Definition CONFIG_PATH : string := "config.json".

Definition DEFAULT_VOICE_SETTINGS : gmap string json :=
  {[ "speed" := JNum 1.0%Q;
     "stability" := JNum 0.5%Q;
     "similarityBoost" := JNum 0.75%Q;
     "style" := JNum 0.0%Q ]}.

Definition DEFAULT_AUTO_SUBMIT : gmap string json :=
  {[ "enabled" := JBool false;
     "silenceDelay" := JNum 3.0%Q;
     "minTextLength" := JNum 15%Q;
     "targetApp" := JStr "Cursor" ]}.

Definition DEFAULT_WISPR_LOOP : gmap string json :=
  {[ "enabled" := JBool false;
     "ttsDelay" := JNum 8.0%Q;
     "silenceThreshold" := JNum 0.02%Q;
     "silenceDuration" := JNum 2.0%Q;
     "wisprHotkey" := JStr "shift+ctrl";
     "manualTriggerHotkey" := JStr "ctrl+shift+l" ]}.

Definition DEFAULT_CONFIG : gmap string json :=
  {[ "apiKey" := JStr "";
     "voiceId" := JStr "21m00Tcm4TlvDq8ikWAM";
     "model" := JStr "eleven_flash_v2_5";
     "voiceSettings" := JObj DEFAULT_VOICE_SETTINGS;
     "autoSubmit" := JObj DEFAULT_AUTO_SUBMIT;
     "wisprLoop" := JObj DEFAULT_WISPR_LOOP;
     "autoListen" := JBool true ]}.

(** The object literal returned inside the [try] of [loadConfig]. *)
Definition merge_parsed (parsed : json) : exn (gmap string json) :=
  vs ← get_prop parsed "voiceSettings";
  au ← get_prop parsed "autoSubmit";
  wl ← get_prop parsed "wisprLoop";
  al ← get_prop parsed "autoListen";
  Normal
    (<["autoListen" :=
         match al with
         | Some v => v
         | None => JBool true (* DEFAULT_CONFIG.autoListen *)
         end]>
     (<["wisprLoop" := JObj (spread DEFAULT_WISPR_LOOP (or_else wl (JObj ∅)))]>
     (<["autoSubmit" := JObj (spread DEFAULT_AUTO_SUBMIT (or_else au (JObj ∅)))]>
     (<["voiceSettings" :=
          JObj (spread DEFAULT_VOICE_SETTINGS (or_else vs (JObj ∅)))]>
     (spread DEFAULT_CONFIG parsed))))).

(** The body of the [try] block: [None] when [existsSync] is false and
    control falls through to the final [return]. *)
Definition loadConfig_try (fs : gmap string file)
    : exn (option (gmap string json)) :=
  match fs !! CONFIG_PATH with
  | None => Normal None
  | Some f =>
      raw ← readFileSync f;
      parsed ← JSON_parse raw;
      c ← merge_parsed parsed;
      Normal (Some c)
  end.

(** The object built by the last [return] of [loadConfig]. *)
Definition fresh_defaults : gmap string json :=
  <["autoListen" := JBool true]>
  (<["wisprLoop" := JObj DEFAULT_WISPR_LOOP]>
  (<["autoSubmit" := JObj DEFAULT_AUTO_SUBMIT]>
  (<["voiceSettings" := JObj DEFAULT_VOICE_SETTINGS]> DEFAULT_CONFIG))).

Definition loadConfig (fs : gmap string file) : gmap string json :=
  match loadConfig_try fs with
  | Normal (Some c) => c
  | Normal None => fresh_defaults
  | Throw _ => fresh_defaults
  end.

(** [saveConfig(config)]: the partial object is laid over the loaded
    configuration and the result is written; a failing write propagates.
    The result is the completion of the call and the file system it
    leaves. *)
Definition saveConfig (w : outcome) (config : gmap string json)
    (fs : gmap string file) : exn (gmap string json) * gmap string file :=
  let current := loadConfig fs in
  let updated := config ∪ current in
  let written := writeFileSync w CONFIG_PATH (JObj updated) fs in
  (_ ← written.1; Normal updated, written.2).

(** An object literal property [k: v] whose value may be [undefined];
    reading an absent property and reading one bound to [undefined] give
    the same result, so the binding is dropped. *)
Definition set_prop (k : string) (v : option json) (o : gmap string json)
    : gmap string json :=
  match v with
  | Some x => <[k := x]> o
  | None => delete k o
  end.

(** [a || b] where both sides may be [undefined]. *)
Definition or_undef (a b : option json) : option json :=
  if truthy a then a else b.

(** [getEffectiveConfig()], with [process.env] as a map of strings. *)
Definition getEffectiveConfig (env : gmap string string)
    (fs : gmap string file) : gmap string json :=
  let fileConfig := loadConfig fs in
  set_prop "apiKey"
    (or_undef (JStr <$> env !! "ELEVENLABS_API_KEY") (fileConfig !! "apiKey"))
  (set_prop "voiceId"
    (or_undef (JStr <$> env !! "ELEVENLABS_VOICE_ID") (fileConfig !! "voiceId"))
  (set_prop "model"
    (or_undef (fileConfig !! "model") (DEFAULT_CONFIG !! "model"))
  (set_prop "voiceSettings" (fileConfig !! "voiceSettings")
  (set_prop "autoSubmit" (fileConfig !! "autoSubmit")
  (set_prop "wisprLoop" (fileConfig !! "wisprLoop")
  (set_prop "autoListen" (fileConfig !! "autoListen") ∅)))))).

(** [v.k] on a parsed value other than [null]. *)
Definition field (parsed : json) (k : string) : option json :=
  match parsed with
  | JObj o => o !! k
  | _ => None
  end.

(** The object returned from inside the [try], for a parsed value other
    than [null]. *)
Definition merged (parsed : json) : gmap string json :=
  <["autoListen" := default (JBool true) (field parsed "autoListen")]>
  (<["wisprLoop" :=
       JObj (spread DEFAULT_WISPR_LOOP
               (or_else (field parsed "wisprLoop") (JObj ∅)))]>
  (<["autoSubmit" :=
       JObj (spread DEFAULT_AUTO_SUBMIT
               (or_else (field parsed "autoSubmit") (JObj ∅)))]>
  (<["voiceSettings" :=
       JObj (spread DEFAULT_VOICE_SETTINGS
               (or_else (field parsed "voiceSettings") (JObj ∅)))]>
  (spread DEFAULT_CONFIG parsed)))).

(** The fields of [Config] that hold a string or a boolean, and those
    that hold a record, each with its defaults. *)
Definition scalar_fields : list string :=
  ["apiKey"; "voiceId"; "model"; "autoListen"].

Definition nested_fields : list (string * gmap string json) :=
  [("voiceSettings", DEFAULT_VOICE_SETTINGS);
   ("autoSubmit", DEFAULT_AUTO_SUBMIT);
   ("wisprLoop", DEFAULT_WISPR_LOOP)].

(** The value of a field that is filled from the defaults when missing. *)
Definition or_default (present dflt : option json) : option json :=
  match present with
  | Some v => Some v
  | None => dflt
  end.

(** The seven fields of [Config]. *)
Definition config_fields : list string :=
  scalar_fields ++ nested_fields.*1.

(** A property name that starts with a decimal digit, as the index names
    of arrays and strings do. *)
Definition starts_with_digit (s : string) : Prop :=
  match s with
  | String c _ => (48 ≤ Ascii.nat_of_ascii c ≤ 57)%nat
  | EmptyString => False
  end.

End Config.
Export Config.

(* ===================================================================== *)
(** ** settings-server.ts                                                *)
(* ===================================================================== *)

Module Settings.

(** [maskKey(key)].  [key.slice(-4)] is only reached when the key has more
    than eight characters, where it is the last four of them. *)
Definition maskKey (key : string) : string :=
  if (String.length key <=? 8)%nat then "****"
  else String.substring 0 4 key +:+ "****"
       +:+ String.substring (String.length key - 4) 4 key.

(** [k ? maskKey(k) : ""] on the stored value [k].  [Config.apiKey] is
    declared a string; [None] stands for a truthy stored value of another
    JSON type, on which [maskKey] is not modelled. *)
Definition masked (k : option json) : option json :=
  if truthy k then
    match k with
    | Some (JStr key) => Some (JStr (maskKey key))
    | _ => None
    end
  else Some (JStr "").

(** The object literal that both handlers hand to [res.json]. *)
Definition masked_view (config : gmap string json)
    : option (gmap string json) :=
  m ← masked (config !! "apiKey");
  Some
    (set_prop "apiKey" (Some m)
    (set_prop "apiKeySet" (Some (JBool (truthy (config !! "apiKey"))))
    (set_prop "voiceId" (config !! "voiceId")
    (set_prop "model" (config !! "model")
    (set_prop "voiceSettings" (config !! "voiceSettings")
    (set_prop "autoSubmit" (config !! "autoSubmit")
    (set_prop "wisprLoop" (config !! "wisprLoop")
    (set_prop "autoListen" (config !! "autoListen") ∅)))))))).

(** GET /api/config. *)
Definition get_api_config (fs : gmap string file)
    : option (gmap string json) :=
  masked_view (loadConfig fs).

(** [if (x !== undefined) updates.k = x]. *)
Definition copy_defined (k : string) (body updates : gmap string json)
    : gmap string json :=
  match body !! k with
  | Some v => <[k := v]> updates
  | None => updates
  end.

(** [x !== ""]. *)
Definition not_empty_string (v : json) : bool :=
  match v with
  | JStr s => negb (String.eqb s "")
  | _ => true
  end.

(** The [updates] record built from the request body, a JSON object. *)
Definition collect_updates (body : gmap string json) : gmap string json :=
  let u0 : gmap string json := ∅ in
  let u1 :=
    match body !! "apiKey" with
    | Some v => if not_empty_string v then <["apiKey" := v]> u0 else u0
    | None => u0
    end in
  let u2 := copy_defined "voiceId" body u1 in
  let u3 := copy_defined "model" body u2 in
  let u4 := copy_defined "voiceSettings" body u3 in
  let u5 := copy_defined "autoSubmit" body u4 in
  let u6 := copy_defined "wisprLoop" body u5 in
  copy_defined "autoListen" body u6.

(** POST /api/config when the environment answers [w] to the write.  The
    result is the response payload ([Throw] when [saveConfig] throws, which
    the framework turns into an error response; [Normal None] when the
    saved key is of a type [masked] does not model) and the file system
    left behind. *)
Definition post_api_config (w : outcome) (body : gmap string json)
    (fs : gmap string file)
    : exn (option (gmap string json)) * gmap string file :=
  match saveConfig w (collect_updates body) fs with
  | (Normal saved, fs') =>
      (Normal
         (view ← masked_view saved;
          Some ({[ "success" := JBool true; "config" := JObj view ]}
                  : gmap string json)),
       fs')
  | (Throw e, fs') => (Throw e, fs')
  end.

(** The fields that the POST handler copies whenever they are defined. *)
Definition body_fields : list string :=
  ["voiceId"; "model"; "voiceSettings"; "autoSubmit"; "wisprLoop";
   "autoListen"].

(** The characters of a string. *)
Definition chars (s : string) : list Ascii.ascii := String.list_ascii_of_string s.

(** The mask in words, on the characters of the key: four stars for a key
    of at most eight characters, otherwise its first four characters, four
    stars and its last four characters. *)
Definition mask_in_words (key : list Ascii.ascii) : list Ascii.ascii :=
  if decide (length key ≤ 8) then chars "****"
  else take 4 key ++ chars "****" ++ drop (length key - 4) key.

(** The fields of the object [masked_view] builds. *)
Definition view_fields : list string :=
  "apiKey" :: "apiKeySet" :: body_fields.

(** An answer of the settings server: the status and the JSON payload. *)
Inductive response : Type :=
| Reply (status : nat) (payload : gmap string json).

(** [req.body.apiKey || config.apiKey]. *)
Definition request_key (body : gmap string json) (fs : gmap string file)
    : option json :=
  or_undef (body !! "apiKey") (loadConfig fs !! "apiKey").

(** The entry made for a voice [v] of the vendor's list; [labels] is
    copied by /api/voices only. *)
Definition voice_entry (labels : bool) (v : gmap string json) : json :=
  JObj
    (set_prop "id" (v !! "voiceId")
    (set_prop "name" (v !! "name")
    (set_prop "category" (v !! "category")
    (set_prop "preview_url" (v !! "previewUrl")
    (if labels then set_prop "labels" (v !! "labels") ∅ else ∅))))).

(** The [try] of POST /api/test once a key is chosen; [vendor k] is what
    [new ElevenLabsClient({apiKey: k}).voices.getAll()] gives. *)
Definition test_key (vendor : json → exn (list (gmap string json)))
    (k : json) : response :=
  match vendor k with
  | Normal voices =>
      Reply 200
        {[ "success" := JBool true;
           "message" :=
             JStr ("API key is valid! Found " +:+ pretty (length voices)
                   +:+ " voices.");
           "voices" := JArr (voice_entry false <$> voices) ]}
  | Throw msg =>
      Reply 400 {[ "error" := JStr ("API key test failed: " +:+ msg) ]}
  end.

(** POST /api/test. *)
Definition post_api_test (vendor : json → exn (list (gmap string json)))
    (body : gmap string json) (fs : gmap string file) : response :=
  match request_key body fs with
  | Some k =>
      if truthy (Some k) then test_key vendor k
      else Reply 400 {[ "error" := JStr "No API key configured" ]}
  | None => Reply 400 {[ "error" := JStr "No API key configured" ]}
  end.

(** The [try] of POST /api/voices once a key is chosen. *)
Definition list_voices (vendor : json → exn (list (gmap string json)))
    (k : json) : response :=
  match vendor k with
  | Normal voices =>
      Reply 200 {[ "voices" := JArr (voice_entry true <$> voices) ]}
  | Throw msg => Reply 400 {[ "error" := JStr msg ]}
  end.

(** POST /api/voices. *)
Definition post_api_voices (vendor : json → exn (list (gmap string json)))
    (body : gmap string json) (fs : gmap string file) : response :=
  match request_key body fs with
  | Some k =>
      if truthy (Some k) then list_voices vendor k
      else Reply 400 {[ "error" := JStr "No API key configured" ]}
  | None => Reply 400 {[ "error" := JStr "No API key configured" ]}
  end.

End Settings.
Export Settings.

(* ===================================================================== *)
(** ** index.ts: the speech queue and the two tools                      *)
(* ===================================================================== *)

Module TtsServer.

Definition completionPath : string := "tts-complete.json".
Definition signalPath : string := "listen-signal.json".

(** The double quote character, for the success message. *)
Definition dquote : string :=
  String (Ascii.Ascii false true false false false true false false)
         EmptyString.

(** A tool result [{content: [{type: "text", text}], isError}]; an absent
    [isError] is [false]. *)
Record toolResult : Type := ToolResult {
  content : string;
  isError : bool;
}.

(** A queue item; the [resolve]/[reject] pair of the promise made by
    [queueTTS] is identified by the number of that promise. *)
Record TTSQueueItem : Type := QueueItem {
  text : string;
  promise : nat;
}.

#[global] Instance TTSQueueItem_eq_dec : EqDecision TTSQueueItem.
Proof. solve_decision. Defined.

(** Where an activation of [processTTSQueue] is suspended. *)
Inductive suspended : Type :=
| AwaitConvert (item : TTSQueueItem)
| AwaitPlay (item : TTSQueueItem).

Definition in_flight (p : suspended) : TTSQueueItem :=
  match p with
  | AwaitConvert item => item
  | AwaitPlay item => item
  end.

(** What the server does, in the order it does it. *)
Inductive event : Type :=
| Queued (item : TTSQueueItem)
| ConvertCalled (item : TTSQueueItem)
| PlayBegin (item : TTSQueueItem)
| PlayEnd (item : TTSQueueItem) (r : outcome)
| Resolved (item : TTSQueueItem) (r : toolResult)
| Rejected (item : TTSQueueItem) (r : toolResult)
| ListenReturned (r : toolResult).

Record state : Type := State {
  config : gmap string json;
  ttsQueue : list TTSQueueItem;
  isProcessingQueue : bool;
  loops : list suspended;
  disk : gmap string file;
  trace : list event;
  promises : nat;
}.

Definition emit (es : list event) (st : state) : state :=
  State (config st) (ttsQueue st) (isProcessingQueue st) (loops st)
        (disk st) (trace st ++ es) (promises st).

Definition set_flag (b : bool) (st : state) : state :=
  State (config st) (ttsQueue st) b (loops st)
        (disk st) (trace st) (promises st).

Definition set_loops (l : list suspended) (st : state) : state :=
  State (config st) (ttsQueue st) (isProcessingQueue st) l
        (disk st) (trace st) (promises st).

Definition set_queue (q : list TTSQueueItem) (st : state) : state :=
  State (config st) q (isProcessingQueue st) (loops st)
        (disk st) (trace st) (promises st).

Definition set_disk (d : gmap string file) (st : state) : state :=
  State (config st) (ttsQueue st) (isProcessingQueue st) (loops st)
        d (trace st) (promises st).

(** The state at startup: [config] is computed once. *)
Definition init (cfg : gmap string json) (d : gmap string file) : state :=
  State cfg [] false [] d [] 0.

Definition boot (env : gmap string string) (d : gmap string file) : state :=
  init (getEffectiveConfig env d) d.

(** The head of the [while]: leave the loop and clear the flag when the
    queue is empty; otherwise shift the first item, call the gateway with
    its text and suspend on the answer. *)
Definition loop_head (st : state) : state :=
  match ttsQueue st with
  | [] => set_flag false st
  | item :: rest =>
      emit [ConvertCalled item]
        (set_loops (loops st ++ [AwaitConvert item]) (set_queue rest st))
  end.

Definition processTTSQueue (st : state) : state :=
  if isProcessingQueue st || bool_decide (ttsQueue st = []) then st
  else loop_head (set_flag true st).

Definition queueTTS (t : string) (st : state) : state :=
  let item := QueueItem t (promises st) in
  let st1 :=
    State (config st) (ttsQueue st ++ [item]) (isProcessingQueue st)
          (loops st) (disk st) (trace st ++ [Queued item])
          (S (promises st)) in
  processTTSQueue st1.

Definition completionSignal (now : string) : json :=
  JObj {[ "timestamp" := JStr now; "completed" := JBool true ]}.

Definition listenSignal (now : string) : json :=
  JObj {[ "timestamp" := JStr now; "triggered" := JBool true ]}.

Definition spoken (item : TTSQueueItem) : toolResult :=
  ToolResult ("Spoken: " +:+ dquote +:+ text item +:+ dquote) false.

Definition failed_to_speak (errorMessage : string) : toolResult :=
  ToolResult ("Failed to speak: " +:+ errorMessage) true.

(** The [catch] block of the loop body. *)
Definition catch_item (item : TTSQueueItem) (errorMessage : string)
    (st : state) : state :=
  emit [Rejected item (failed_to_speak errorMessage)] st.

(** The promise awaited by the [k]-th suspended activation settles with
    [r].  [now] is what [new Date().toISOString()] returns and [w] what
    the file system answers, should the activation get that far. *)
Definition resume (k : nat) (r : outcome) (now : string) (w : outcome)
    (st : state) : state :=
  match loops st !! k with
  | None => st
  | Some p =>
      let st0 := set_loops (delete k (loops st)) st in
      match p, failure r with
      | AwaitConvert item, None =>
          emit [PlayBegin item]
            (set_loops (loops st0 ++ [AwaitPlay item]) st0)
      | AwaitConvert item, Some e =>
          loop_head (catch_item item e st0)
      | AwaitPlay item, None =>
          let st1 := emit [PlayEnd item Fulfilled] st0 in
          match writeFileSync w completionPath (completionSignal now)
                  (disk st1) with
          | (Normal _, d) =>
              loop_head
                (emit [Resolved item (spoken item)]
                   (set_disk d st1))
          | (Throw e, d) => loop_head (catch_item item e (set_disk d st1))
          end
      | AwaitPlay item, Some e =>
          loop_head (catch_item item e (emit [PlayEnd item r] st0))
      end
  end.

(** The handler of the [listen] tool. *)
Definition listen (cfg : gmap string json) (now : string) (w : outcome)
    (fs : gmap string file) : toolResult * gmap string file :=
  if negb (truthy (cfg !! "autoListen")) then
    (ToolResult "Auto-listen is disabled" false, fs)
  else
    match writeFileSync w signalPath (listenSignal now) fs with
    | (Normal _, fs') => (ToolResult "Listening for user input..." false, fs')
    | (Throw e, fs') =>
        (ToolResult ("Failed to start listening: " +:+ e) true, fs')
    end.

(** What can happen to the server: a tool call arrives, or an awaited
    promise settles. *)
Inductive input : Type :=
| Speak (t : string)
| Listen (now : string) (w : outcome)
| Settle (k : nat) (r : outcome) (now : string) (w : outcome).

Definition step (st : state) (i : input) : state :=
  match i with
  | Speak t => queueTTS t st
  | Listen now w =>
      let '(r, d) := listen (config st) now w (disk st) in
      emit [ListenReturned r] (set_disk d st)
  | Settle k r now w => resume k r now w st
  end.

Definition run (st : state) (ins : list input) : state := foldl step st ins.

(** *** Readings of the trace *)

Definition submitted (tr : list event) : list TTSQueueItem :=
  omap (λ e, match e with Queued i => Some i | _ => None end) tr.

Definition attempted (tr : list event) : list TTSQueueItem :=
  omap (λ e, match e with ConvertCalled i => Some i | _ => None end) tr.

Definition played (tr : list event) : list TTSQueueItem :=
  omap (λ e, match e with PlayBegin i => Some i | _ => None end) tr.

(** The promises settled so far, in order, each with the object its
    [resolve] or its [reject] was called with: this reading does not tell
    the two apart, [resolved], [rejected] and [speak_handler] do. *)
Definition settled (tr : list event) : list (TTSQueueItem * toolResult) :=
  omap (λ e, match e with
             | Resolved i r => Some (i, r)
             | Rejected i r => Some (i, r)
             | _ => None
             end) tr.

(** The calls of [item.resolve], with the value passed. *)
Definition resolved (tr : list event) : list (TTSQueueItem * toolResult) :=
  omap (λ e, match e with Resolved i r => Some (i, r) | _ => None end) tr.

(** The calls of [item.reject], with the reason passed. *)
Definition rejected (tr : list event) : list (TTSQueueItem * toolResult) :=
  omap (λ e, match e with Rejected i r => Some (i, r) | _ => None end) tr.

(** How a call of the handler of the [speak] tool ends.  The handler is
    [async ({ text }) => { return await queueTTS(text); }], without a
    [try]: it returns the value its promise is resolved with, and it
    throws the reason its promise is rejected with. *)
Inductive completion : Type :=
| Returned (r : toolResult)
| Thrown (reason : toolResult).

Definition speak_handler (tr : list event)
    : list (TTSQueueItem * completion) :=
  omap (λ e, match e with
             | Resolved i r => Some (i, Returned r)
             | Rejected i r => Some (i, Thrown r)
             | _ => None
             end) tr.

(** The playbacks that ran to their end. *)
Definition completed (tr : list event) : list TTSQueueItem :=
  omap (λ e, match e with PlayEnd i Fulfilled => Some i | _ => None end) tr.

Definition listened (tr : list event) : list toolResult :=
  omap (λ e, match e with ListenReturned r => Some r | _ => None end) tr.

Definition playing (l : list suspended) : list TTSQueueItem :=
  omap (λ p, match p with AwaitPlay i => Some i | _ => None end) l.

(** The items whose playback has not begun: the one whose gateway call is
    pending, then the queue. *)
Definition waiting (st : state) : list TTSQueueItem :=
  omap (λ p, match p with AwaitConvert i => Some i | _ => None end) (loops st)
  ++ ttsQueue st.

(** An input other than the failure of a gateway call or of a playback. *)
Definition healthy (i : input) : Prop :=
  match i with
  | Settle _ (Failed _) _ _ => False
  | Settle _ (Aborted _) _ _ => False
  | _ => True
  end.

(** The audio device as the trace drives it: [Some None] when silent,
    [Some (Some i)] while [i] is playing, [None] once a playback or a
    gateway call started while another playback was still running, or a
    playback ended that was not the running one. *)
Definition track (s : option (option TTSQueueItem)) (e : event)
    : option (option TTSQueueItem) :=
  match s, e with
  | None, _ => None
  | Some None, PlayBegin i => Some (Some i)
  | Some (Some _), PlayBegin _ => None
  | Some (Some j), PlayEnd i _ => if decide (i = j) then Some None else None
  | Some None, PlayEnd _ _ => None
  | Some (Some _), ConvertCalled _ => None
  | Some b, _ => Some b
  end.

Definition audio (tr : list event) : option (option TTSQueueItem) :=
  foldl track (Some None) tr.



(** Settlements still owed before the queue is empty: two for an item
    waiting or being synthesized, one for an item being played. *)
Definition stage (p : suspended) : nat :=
  match p with
  | AwaitConvert _ => 2
  | AwaitPlay _ => 1
  end.

Definition remaining (st : state) : nat :=
  2 * length (ttsQueue st) + sum_list (stage <$> loops st).

Definition is_settle (i : input) : Prop :=
  match i with
  | Settle 0 _ _ _ => True
  | _ => False
  end.

Definition is_listen (i : input) : Prop :=
  match i with
  | Listen _ _ => True
  | _ => False
  end.

(** The [timestamp] field of a signal file. *)
Definition timestamp (f : option file) : option string :=
  match f with
  | Some (JsonText (JObj o)) =>
      match o !! "timestamp" with
      | Some (JStr s) => Some s
      | _ => None
      end
  | _ => None
  end.

(** [later a b]: the instant [b] is strictly after [a].  Both are outputs
    of [toISOString], which are of one length and ordered as their
    instants by the order of their characters. *)
Definition later (a b : string) : bool := String.ltb a b.

(** Whether the settlement [r] ends the iteration suspended at [p]: a
    fulfilled gateway call goes on to playback, anything else settles the
    item. *)
Definition finishes (p : suspended) (r : outcome) : bool :=
  match p, r with
  | AwaitConvert _, Fulfilled => false
  | _, _ => true
  end.

(** What holds of the server between any two inputs. *)
Record inv (st : state) : Prop := {
  inv_guard :
    (loops st = [] ∧ isProcessingQueue st = false ∧ ttsQueue st = [])
    ∨ (∃ p, loops st = [p] ∧ isProcessingQueue st = true);
  inv_fifo :
    submitted (trace st) = attempted (trace st) ++ ttsQueue st;
  inv_settled :
    attempted (trace st)
    = (settled (trace st)).*1 ++ (in_flight <$> loops st);
  inv_played :
    sublist (played (trace st))
            ((settled (trace st)).*1 ++ playing (loops st));
  inv_audio :
    audio (trace st) = Some (head (playing (loops st)));
  inv_fresh :
    promise <$> submitted (trace st) = seq 0 (promises st);
}.

(** The state inside the loop, between two iterations: the flag is set
    and no activation is suspended. *)
Record between (st : state) : Prop := {
  btw_loops : loops st = [];
  btw_flag : isProcessingQueue st = true;
  btw_fifo : submitted (trace st) = attempted (trace st) ++ ttsQueue st;
  btw_settled : attempted (trace st) = (settled (trace st)).*1;
  btw_played : sublist (played (trace st)) (settled (trace st)).*1;
  btw_audio : audio (trace st) = Some None;
  btw_fresh : promise <$> submitted (trace st) = seq 0 (promises st);
}.

(** How [main] ends: the process exits with a code, or the server is
    connected to its transport and serves tool calls. *)
Inductive startup : Type :=
| Exit (code : nat)
| Serving.

(** [main()] with its [catch]: [connect] is the outcome of
    [server.connect(transport)]. *)
Definition main (cfg : gmap string json) (connect : outcome) : startup :=
  if negb (truthy (cfg !! "apiKey")) then Exit 1
  else match connect with
       | Fulfilled => Serving
       | Failed _ => Exit 1
       | Aborted _ => Exit 1
       end.

#[global] Instance is_listen_dec i : Decision (is_listen i).
Proof. destruct i; simpl; apply _. Defined.

(** The events of the speech queue: all but the answers of [listen]. *)
Definition speech_event (e : event) : Prop :=
  match e with
  | ListenReturned _ => False
  | _ => True
  end.

#[global] Instance speech_event_dec e : Decision (speech_event e).
Proof. destruct e; simpl; apply _. Defined.

(** What the speech queue is made of and what it has done. *)
Definition speech_view (st : state) :=
  (ttsQueue st, isProcessingQueue st, loops st, promises st,
   filter speech_event (trace st), disk st !! completionPath).

(** What one input does to the results, to the playbacks and to the
    files: nothing but possibly a write of the listen-signal file; or a
    playback starts; or the item in flight is rejected, after a failure of
    the gateway or of the player, which leaves the files alone, or after a
    playback that ran to its end and a failed write of the
    playback-complete file; or it is resolved and the playback-complete
    file is written. *)
Inductive effect (st st' : state) : Prop :=
| Quiet :
    speak_handler (trace st') = speak_handler (trace st) →
    played (trace st') = played (trace st) →
    completed (trace st') = completed (trace st) →
    playing (loops st') = playing (loops st) →
    (∀ path, path ≠ signalPath → disk st' !! path = disk st !! path) →
    effect st st'
| Starts item :
    playing (loops st') = [item] →
    played (trace st') = played (trace st) ++ [item] →
    completed (trace st') = completed (trace st) →
    speak_handler (trace st') = speak_handler (trace st) →
    disk st' = disk st →
    effect st st'
| Rejects item e :
    playing (loops st') = [] →
    speak_handler (trace st')
    = speak_handler (trace st) ++ [(item, Thrown (failed_to_speak e))] →
    played (trace st') = played (trace st) →
    (completed (trace st') = completed (trace st) ∧ disk st' = disk st)
    ∨ (completed (trace st') = completed (trace st) ++ [item]
       ∧ ∀ path, path ≠ completionPath → disk st' !! path = disk st !! path) →
    effect st st'
| Resolves item now :
    playing (loops st) = [item] →
    playing (loops st') = [] →
    speak_handler (trace st')
    = speak_handler (trace st) ++ [(item, Returned (spoken item))] →
    played (trace st') = played (trace st) →
    completed (trace st') = completed (trace st) ++ [item] →
    disk st' = <[completionPath := JsonText (completionSignal now)]> (disk st) →
    effect st st'.

(** What holds of the results and of the files in every state reached
    from the file system [d0]. *)
Record results_inv (d0 : gmap string file) (st : state) : Prop := {
  ri_playing :
    ∀ i, i ∈ playing (loops st) → i ∈ played (trace st);
  ri_results :
    Forall (λ p, (p.2 = Returned (spoken p.1) ∧ p.1 ∈ played (trace st))
                 ∨ ∃ e, p.2 = Thrown (failed_to_speak e))
           (speak_handler (trace st));
  ri_completed :
    completed (trace st) = [] →
    disk st !! completionPath = d0 !! completionPath;
  ri_others :
    ∀ path, path ≠ completionPath → path ≠ signalPath →
      disk st !! path = d0 !! path;
}.

End TtsServer.
Export TtsServer.

(* ===================================================================== *)
(** ** Runs on concrete inputs                                           *)
(* ===================================================================== *)

Example loadConfig_absent :
  loadConfig ∅ !! "voiceId" = Some (JStr "21m00Tcm4TlvDq8ikWAM").
Proof. vm_compute. reflexivity. Qed.

Example loadConfig_partial :
  loadConfig
    {[ CONFIG_PATH :=
         JsonText (JObj {[ "voiceSettings" :=
                             JObj {[ "speed" := JNum 1.1%Q ]} ]}) ]}
    !! "voiceSettings"
  = Some (JObj {[ "speed" := JNum 1.1%Q; "stability" := JNum 0.5%Q;
                  "similarityBoost" := JNum 0.75%Q;
                  "style" := JNum 0.0%Q ]}).
Proof. vm_compute. reflexivity. Qed.

Example maskKey_short : maskKey "abcdefgh" = "****".
Proof. reflexivity. Qed.

Example maskKey_long : maskKey "sk_0123456789abcdef" = "sk_0****cdef".
Proof. reflexivity. Qed.

Example two_speaks :
  let st := run (init ∅ ∅)
              [Speak "a"; Speak "b"; Settle 0 Fulfilled "t1" Fulfilled;
               Settle 0 Fulfilled "t1" Fulfilled] in
  attempted (trace st) = [QueueItem "a" 0; QueueItem "b" 1]
  ∧ settled (trace st) = [(QueueItem "a" 0, spoken (QueueItem "a" 0))]
  ∧ isProcessingQueue st = true
  ∧ loops st = [AwaitConvert (QueueItem "b" 1)].
Proof. vm_compute. auto. Qed.

(* ===================================================================== *)
(** ** The speech queue: invariants of every reachable state             *)
(* ===================================================================== *)

Lemma submitted_app t1 t2 : submitted (t1 ++ t2) = submitted t1 ++ submitted t2.
Proof. apply omap_app. Qed.

Lemma attempted_app t1 t2 : attempted (t1 ++ t2) = attempted t1 ++ attempted t2.
Proof. apply omap_app. Qed.

Lemma played_app t1 t2 : played (t1 ++ t2) = played t1 ++ played t2.
Proof. apply omap_app. Qed.

Lemma settled_app t1 t2 : settled (t1 ++ t2) = settled t1 ++ settled t2.
Proof. apply omap_app. Qed.

Lemma listened_app t1 t2 : listened (t1 ++ t2) = listened t1 ++ listened t2.
Proof. apply omap_app. Qed.

Lemma resolved_app t1 t2 : resolved (t1 ++ t2) = resolved t1 ++ resolved t2.
Proof. apply omap_app. Qed.

Lemma rejected_app t1 t2 : rejected (t1 ++ t2) = rejected t1 ++ rejected t2.
Proof. apply omap_app. Qed.

Lemma speak_handler_app t1 t2 :
  speak_handler (t1 ++ t2) = speak_handler t1 ++ speak_handler t2.
Proof. apply omap_app. Qed.

Lemma completed_app t1 t2 :
  completed (t1 ++ t2) = completed t1 ++ completed t2.
Proof. apply omap_app. Qed.

Lemma audio_app t1 t2 : audio (t1 ++ t2) = foldl track (audio t1) t2.
Proof. apply foldl_app. Qed.

Ltac split_trace :=
  rewrite ?submitted_app, ?attempted_app, ?played_app, ?settled_app,
    ?listened_app, ?resolved_app, ?rejected_app, ?speak_handler_app,
    ?completed_app, ?audio_app, ?fmap_app;
  simpl; rewrite ?app_nil_r.

Lemma init_inv cfg d : inv (init cfg d).
Proof. split; simpl; auto. Qed.

Lemma loop_head_inv st : between st → inv (loop_head st).
Proof.
  destruct st as [cfg q f l d tr n]. intros [Hl Hf Hq Hs Hp Ha Hn].
  simpl in *. subst l f. unfold loop_head; simpl.
  destruct q as [|item rest]; split; simpl.
  - left; auto.
  - done.
  - by rewrite app_nil_r.
  - by rewrite app_nil_r.
  - done.
  - done.
  - right; eauto.
  - split_trace. by rewrite Hq, <- app_assoc.
  - split_trace. by rewrite Hs.
  - by split_trace.
  - split_trace. by rewrite Ha.
  - by split_trace.
Qed.

Lemma fresh_snoc (s : list TTSQueueItem) n :
  promise <$> s = seq 0 n → (promise <$> s) ++ [n] = seq 0 (S n).
Proof. intros ->. by rewrite seq_S. Qed.

Lemma queueTTS_inv t st : inv st → inv (queueTTS t st).
Proof.
  destruct st as [cfg q f l d tr n]. intros [Hg Hq Hs Hp Ha Hn].
  simpl in *. unfold queueTTS, processTTSQueue; simpl.
  destruct Hg as [(-> & -> & ->) | (p & -> & ->)];
    simpl in *; rewrite ?app_nil_r in *.
  - rewrite ?bool_decide_eq_false_2 by done.
    apply loop_head_inv.
    split; simpl; split_trace; try (by apply fresh_snoc);
      rewrite ?Hq, ?Ha; done.
  - split; simpl; split_trace; try (by apply fresh_snoc);
      rewrite ?Hq, ?Ha, <- ?app_assoc; try done.
    + right; eauto.
    + by destruct p.
Qed.

Lemma listen_inv now w st :
  inv st →
  inv (emit [ListenReturned (listen (config st) now w (disk st)).1]
         (set_disk (listen (config st) now w (disk st)).2 st)).
Proof.
  destruct st as [cfg q f l d tr n]. intros [Hg Hq Hs Hp Ha Hn].
  simpl in *. split; simpl; split_trace; rewrite ?Ha; try done.
  destruct (head (playing l)); done.
Qed.

Lemma resume_inv k r now w st : inv st → inv (resume k r now w st).
Proof.
  intros Hinv. pose proof Hinv as [Hg Hq Hs Hp Ha Hn].
  destruct st as [cfg q f l d tr n]. simpl in *. unfold resume; simpl.
  destruct Hg as [(-> & -> & ->) | (p & -> & ->)]; [done|].
  destruct k as [|k]; [simpl|done].
  destruct p as [item|item], r as [|e|e]; simpl in *;
    rewrite ?app_nil_r in *.
  - split; simpl; split_trace; rewrite ?Ha; try done.
    + right; eauto.
    + by apply sublist_app.
  - apply loop_head_inv. unfold catch_item.
    split; simpl; split_trace; rewrite ?Ha; try done.
    by apply sublist_inserts_r.
  - apply loop_head_inv. unfold catch_item.
    split; simpl; split_trace; rewrite ?Ha; try done.
    by apply sublist_inserts_r.
  - destruct w as [|e2|e2]; simpl; apply loop_head_inv; unfold catch_item;
      split; simpl; split_trace; rewrite ?Ha; simpl;
      rewrite ?decide_True by done; done.
  - apply loop_head_inv. unfold catch_item.
    split; simpl; split_trace; rewrite ?Ha; simpl;
      rewrite ?decide_True by done; done.
  - apply loop_head_inv. unfold catch_item.
    split; simpl; split_trace; rewrite ?Ha; simpl;
      rewrite ?decide_True by done; done.
Qed.

Lemma step_inv st i : inv st → inv (step st i).
Proof.
  intros H. destruct i as [t | now w | k r now w]; simpl.
  - by apply queueTTS_inv.
  - pose proof (listen_inv now w st H) as H'.
    by destruct (listen (config st) now w (disk st)).
  - by apply resume_inv.
Qed.

Lemma run_inv ins : ∀ st, inv st → inv (run st ins).
Proof.
  induction ins as [|i ins IH]; intros st H; [done|].
  apply IH. by apply step_inv.
Qed.

Lemma reachable_inv cfg d ins : inv (run (init cfg d) ins).
Proof. apply run_inv, init_inv. Qed.

(** *** Draining: every suspended loop runs to the empty queue *)

Lemma resume_idle k r now w st : loops st = [] → resume k r now w st = st.
Proof. unfold resume. by intros ->. Qed.

Lemma resume_progress r now w st :
  inv st → loops st ≠ [] →
  remaining (resume 0 r now w st) < remaining st.
Proof.
  intros [Hg _ _ _ _ _] Hne. destruct st as [cfg q f l d tr n].
  simpl in *. destruct Hg as [(-> & _) | (p & -> & ->)]; [done|].
  unfold resume, remaining, loop_head, catch_item; simpl.
  destruct p as [item|item], r as [|e|e]; simpl;
    try destruct w as [|e'|e']; simpl; destruct q; simpl; lia.
Qed.

Lemma resume_submitted k r now w st :
  submitted (trace (resume k r now w st)) = submitted (trace st).
Proof.
  destruct st as [cfg q f l d tr n]. unfold resume; simpl.
  destruct (l !! k) as [[item|item]|]; [| |done];
    destruct r as [|e|e]; simpl; try destruct w as [|e'|e'];
    unfold loop_head, catch_item; simpl;
    try destruct q; simpl; by split_trace.
Qed.

Lemma drain_loops ins : ∀ st,
  inv st → Forall is_settle ins → remaining st ≤ length ins →
  loops (run st ins) = [] ∧ submitted (trace (run st ins)) = submitted (trace st).
Proof.
  induction ins as [|i ins IH]; intros st Hinv Hall Hlen.
  - simpl in *. split; [|done].
    unfold remaining in Hlen. destruct (loops st) as [|[]]; simpl in *; [done|lia..].
  - apply Forall_cons in Hall as [Hi Hall].
    destruct i as [| |[|k] r now w]; try done. simpl.
    destruct (decide (loops st = [])) as [Hl|Hl].
    + rewrite resume_idle by done. apply IH; auto.
      unfold remaining in *. rewrite Hl in *. simpl in *.
      pose proof (inv_guard _ Hinv) as [(_ & _ & Hq)|(p & Hp & _)]; [|congruence].
      rewrite Hq. simpl. lia.
    + pose proof (resume_progress r now w st Hinv Hl).
      destruct (IH (resume 0 r now w st)) as [H1 H2]; auto.
      * by apply resume_inv.
      * simpl in Hlen. lia.
      * split; [done|]. by rewrite H2, resume_submitted.
Qed.

(** Once enough settlements have arrived the server is at rest: the flag is
    clear, the queue is empty and every submitted item has been sent to the
    gateway once and settled once, in the order of submission. *)
Lemma drain_all st ins :
  inv st → Forall is_settle ins → remaining st ≤ length ins →
  isProcessingQueue (run st ins) = false
  ∧ loops (run st ins) = []
  ∧ ttsQueue (run st ins) = []
  ∧ attempted (trace (run st ins)) = submitted (trace st)
  ∧ (settled (trace (run st ins))).*1 = submitted (trace st).
Proof.
  intros Hinv Hall Hlen.
  destruct (drain_loops ins st Hinv Hall Hlen) as [Hl Hsub].
  pose proof (run_inv ins st Hinv) as [Hg Hq Hs _ _ _].
  destruct Hg as [(_ & Hf & Hq0) | (p & Hp & _)]; [|congruence].
  rewrite Hq0, app_nil_r in Hq. rewrite Hl in Hs. simpl in Hs.
  rewrite app_nil_r in Hs. repeat split; try done; congruence.
Qed.

Lemma submitted_NoDup st : inv st → NoDup (submitted (trace st)).
Proof.
  intros H. apply (NoDup_fmap_1 promise).
  rewrite (inv_fresh _ H). apply NoDup_seq.
Qed.



Lemma queueTTS_submitted t st :
  submitted (trace (queueTTS t st))
  = submitted (trace st) ++ [QueueItem t (promises st)].
Proof.
  destruct st as [cfg q f l d tr n]. unfold queueTTS, processTTSQueue; simpl.
  destruct (f || bool_decide (q ++ [QueueItem t n] = [])); simpl.
  - by split_trace.
  - unfold loop_head; simpl. destruct (q ++ [QueueItem t n]); simpl;
      by split_trace.
Qed.






(* ===================================================================== *)
(** ** The speech queue: order, isolation of failures, the guard         *)
(* ===================================================================== *)





(** C3.  The flag is clear at startup.  In every reachable state at most
    one activation of the loop exists, the flag is set exactly when one
    does, and a clear flag means an empty queue.  A settlement clears the
    flag exactly when it ends an iteration, by success or by failure,
    while nothing waits in the queue.  Whatever the outcomes, once the
    pending operations have settled the flag is clear; and from a clear
    flag a [speak] call sets it and starts a loop on the new item, while
    under a set flag the call only appends to the queue. *)
Theorem guard_lifecycle cfg d ins :
  isProcessingQueue (init cfg d) = false
  ∧ let st := run (init cfg d) ins in
    length (loops st) ≤ 1
    ∧ (isProcessingQueue st = true ↔ loops st ≠ [])
    ∧ (isProcessingQueue st = false → ttsQueue st = [])
    ∧ (∀ p r now w, loops st = [p] →
         isProcessingQueue (step st (Settle 0 r now w))
         = negb (finishes p r && bool_decide (ttsQueue st = [])))
    ∧ (∀ rest, Forall is_settle rest → remaining st ≤ length rest →
         isProcessingQueue (run st rest) = false)
    ∧ (isProcessingQueue st = false → ∀ t,
         isProcessingQueue (step st (Speak t)) = true
         ∧ loops (step st (Speak t))
           = [AwaitConvert (QueueItem t (promises st))])
    ∧ (isProcessingQueue st = true → ∀ t,
         isProcessingQueue (step st (Speak t)) = true
         ∧ loops (step st (Speak t)) = loops st
         ∧ ttsQueue (step st (Speak t))
           = ttsQueue st ++ [QueueItem t (promises st)]).
Proof.
  split; [done|]. intros st.
  pose proof (reachable_inv cfg d ins) as Hinv. fold st in Hinv.
  pose proof (inv_guard _ Hinv) as Hg.
  split; [|split; [|split; [|split; [|split; [|split]]]]].
  - destruct Hg as [(-> & _) | (p & -> & _)]; simpl; lia.
  - destruct Hg as [(-> & -> & _) | (p & -> & ->)]; by split.
  - destruct Hg as [(_ & _ & ->) | (p & _ & ->)]; done.
  - intros p r now w Hl. clear Hinv. destruct st as [c q f l dk tr n].
    simpl in *. subst l. destruct Hg as [(? & _) | (p' & _ & ->)]; [done|].
    unfold resume, loop_head, catch_item; simpl.
    destruct p as [i|i], r as [|e|e]; simpl; try destruct w as [|e'|e'];
      simpl; by destruct q.
  - intros rest Hall Hlen. by apply (drain_all st rest Hinv).
  - intros Hf t. clear Hinv. destruct st as [c q f l dk tr n].
    simpl in *. subst f.
    destruct Hg as [(-> & _ & ->) | (p' & _ & ?)]; [|done].
    unfold queueTTS, processTTSQueue. done.
  - intros Hf t. clear Hinv Hg. destruct st as [c q f l dk tr n].
    simpl in *. subst f. unfold queueTTS, processTTSQueue. done.
Qed.

Lemma guard_lifecycle_witness :
  isProcessingQueue
    (run (run (init ∅ ∅) [Speak "one"; Speak "two"])
         [Settle 0 (Failed "quota") "t" Fulfilled;
          Settle 0 Fulfilled "t" Fulfilled;
          Settle 0 (Failed "no device") "t" Fulfilled;
          Settle 0 Fulfilled "t" Fulfilled]) = false.
Proof.
  destruct (guard_lifecycle ∅ ∅ [Speak "one"; Speak "two"])
    as (_ & _ & _ & _ & _ & H & _).
  apply H.
  - repeat constructor.
  - vm_compute. lia.
Defined.

(** *** Empty text *)

(** The [speak] tool accepts the empty text and a text of blanks: the
    first goes to the gateway, the second waits in the queue, and neither
    call is answered with a validation error. *)
Lemma empty_text_is_queued_and_synthesized :
  let st := run (init ∅ ∅) [Speak ""; Speak "   "] in
  attempted (trace st) = [QueueItem "" 0]
  ∧ ttsQueue st = [QueueItem "   " 1]
  ∧ settled (trace st) = [].
Proof. vm_compute. auto. Qed.

(** C4, as the code has it.  A [speak] call is never answered at once,
    whatever its text, the empty text included: no result is produced by
    the call, the text becomes a queue item behind those already
    submitted, the item is handed to the gateway immediately when no loop
    is running and joins the queue otherwise, and once the pending
    operations have settled the gateway has been called for it and it has
    been settled. *)
Theorem speak_accepts_every_text cfg d ins t :
  let st := run (init cfg d) ins in
  let item := QueueItem t (promises st) in
  let st' := step st (Speak t) in
  settled (trace st') = settled (trace st)
  ∧ submitted (trace st') = submitted (trace st) ++ [item]
  ∧ (if isProcessingQueue st
     then ttsQueue st' = ttsQueue st ++ [item]
          ∧ attempted (trace st') = attempted (trace st)
     else loops st' = [AwaitConvert item]
          ∧ attempted (trace st') = attempted (trace st) ++ [item])
  ∧ ∀ rest, Forall is_settle rest → remaining st' ≤ length rest →
      item ∈ attempted (trace (run st' rest))
      ∧ item ∈ (settled (trace (run st' rest))).*1.
Proof.
  intros st item st'.
  pose proof (reachable_inv cfg d ins) as Hinv. fold st in Hinv.
  assert (Hinv' : inv st') by by apply step_inv.
  assert (Hsub : submitted (trace st') = submitted (trace st) ++ [item]).
  { unfold st'. simpl. by rewrite queueTTS_submitted. }
  split; [|split; [done|split]].
  - clear Hinv Hinv' Hsub. subst st' item. destruct st as [c q f l dk tr n].
    simpl. unfold queueTTS, processTTSQueue, loop_head; simpl.
    destruct (f || bool_decide (q ++ [QueueItem t n] = [])); simpl.
    + by split_trace.
    + destruct (q ++ [QueueItem t n]); simpl; by split_trace.
  - pose proof (inv_guard _ Hinv) as Hg. clear Hinv Hinv' Hsub.
    subst st' item. destruct st as [c q f l dk tr n]. simpl in *.
    unfold queueTTS, processTTSQueue, loop_head; simpl.
    destruct Hg as [(-> & -> & ->) | (p' & -> & ->)]; simpl;
      by split_trace.
  - intros rest Hall Hlen.
    destruct (drain_all st' rest Hinv' Hall Hlen) as (_ & _ & _ & -> & ->).
    rewrite Hsub. split; apply elem_of_app; right; constructor.
Qed.

Lemma speak_accepts_every_text_witness :
  QueueItem "" 0
  ∈ attempted (trace (run (step (init ∅ ∅) (Speak ""))
                          [Settle 0 Fulfilled "t" Fulfilled;
                           Settle 0 Fulfilled "t" Fulfilled])).
Proof.
  destruct (speak_accepts_every_text ∅ ∅ [] "") as (_ & _ & _ & H).
  apply H.
  - repeat constructor.
  - vm_compute. lia.
Defined.

(* ===================================================================== *)
(** ** The signal files                                                  *)
(* ===================================================================== *)

Lemma step_config st i : config (step st i) = config st.
Proof.
  destruct st as [c q f l dk tr n].
  destruct i as [t | now w | k r now w]; simpl.
  - unfold queueTTS, processTTSQueue, loop_head; simpl.
    destruct (f || bool_decide (q ++ [QueueItem t n] = [])); simpl; [done|].
    by destruct (q ++ [QueueItem t n]).
  - by destruct (listen c now w dk).
  - unfold resume; simpl.
    destruct (l !! k) as [[item|item]|]; [| |done];
      destruct r as [|e|e]; simpl; try destruct w as [|e'|e'];
      unfold loop_head, catch_item; simpl; by try destruct q.
Qed.

Lemma run_config ins : ∀ st, config (run st ins) = config st.
Proof.
  induction ins as [|i ins IH]; intros st; simpl; [done|].
  unfold run in IH. by rewrite IH, step_config.
Qed.

(** *** A write that fails *)




(** *** listen *)

(** The server reads [autoListen] from the file configuration: the
    environment overrides only the key and the voice. *)
Lemma effective_autoListen env d :
  config (boot env d) !! "autoListen" = loadConfig d !! "autoListen".
Proof.
  unfold boot, init, getEffectiveConfig; simpl.
  assert (Hset : ∀ k v (o : gmap string json),
            k ≠ "autoListen" →
            set_prop k v o !! "autoListen" = o !! "autoListen").
  { intros k v o Hne. unfold set_prop. destruct v.
    - by rewrite lookup_insert_ne.
    - by rewrite lookup_delete_ne. }
  rewrite !Hset by done. unfold set_prop.
  destruct (loadConfig d !! "autoListen").
  - by rewrite lookup_insert_eq.
  - by rewrite lookup_delete_eq.
Qed.




(** *** The timestamp of the playback-complete file *)

(** Two playbacks succeed; the clock was set back between them.  The
    second write carries a timestamp that is not later than the one it
    overwrites. *)
Lemma completion_timestamp_can_go_back :
  let st1 := run (init ∅ ∅)
               [Speak "a"; Speak "b";
                Settle 0 Fulfilled "2026-11-02T10:00:05.000Z" Fulfilled;
                Settle 0 Fulfilled "2026-11-02T10:00:05.000Z" Fulfilled] in
  let st2 := run st1
               [Settle 0 Fulfilled "2026-11-02T10:00:01.000Z" Fulfilled;
                Settle 0 Fulfilled "2026-11-02T10:00:01.000Z" Fulfilled] in
  (settled (trace st2)).*1 = [QueueItem "a" 0; QueueItem "b" 1]
  ∧ isError <$> (settled (trace st2)).*2 = [false; false]
  ∧ timestamp (disk st1 !! completionPath) = Some "2026-11-02T10:00:05.000Z"
  ∧ timestamp (disk st2 !! completionPath) = Some "2026-11-02T10:00:01.000Z"
  ∧ later "2026-11-02T10:00:05.000Z" "2026-11-02T10:00:01.000Z" = false.
Proof. vm_compute. auto 6. Qed.

(** C7, as the code has it.  After a successful playback whose write goes
    through, the playback-complete file holds the record made of the clock
    reading taken at that moment and [completed: true], whatever it held
    before; no other file changes.  The timestamp is the reading itself:
    it is later than the one it overwrites exactly when the reading is. *)
Theorem completion_signal_is_the_clock_reading cfg d ins item now :
  let st := run (init cfg d) ins in
  loops st = [AwaitPlay item] →
  let st' := step st (Settle 0 Fulfilled now Fulfilled) in
  disk st' = <[completionPath := JsonText (completionSignal now)]> (disk st)
  ∧ timestamp (disk st' !! completionPath) = Some now
  ∧ (∀ path, path ≠ completionPath → disk st' !! path = disk st !! path)
  ∧ settled (trace st') = settled (trace st) ++ [(item, spoken item)]
  ∧ ∀ prev, timestamp (disk st !! completionPath) = Some prev →
      ∀ new, timestamp (disk st' !! completionPath) = Some new →
        later prev new = later prev now.
Proof.
  intros st Hl st'. subst st'. destruct st as [c q f l dk tr n].
  simpl in *. subst l. unfold resume, loop_head; simpl.
  assert (Hd : ∀ s : state, disk (match q with
             | [] => set_flag false s
             | i :: rest =>
                 emit [ConvertCalled i]
                   (set_loops (loops s ++ [AwaitConvert i]) (set_queue rest s))
             end) = disk s) by (intros s; by destruct q).
  rewrite Hd. simpl.
  assert (Hts : timestamp
            (<[completionPath := JsonText (completionSignal now)]> dk
               !! completionPath) = Some now).
  { by rewrite lookup_insert_eq. }
  repeat split; try done.
  - intros path Hne. by apply lookup_insert_ne.
  - destruct q; simpl; by split_trace.
  - intros prev _ new Hnew. rewrite lookup_insert_eq in Hnew.
    vm_compute in Hnew. by injection Hnew as ->.
Qed.

Lemma completion_signal_is_the_clock_reading_witness :
  let st := run (init ∅ ∅) [Speak "a"; Settle 0 Fulfilled "t0" Fulfilled] in
  timestamp
    (disk (step st (Settle 0 Fulfilled "2026-11-02T10:00:05.000Z" Fulfilled))
       !! completionPath)
  = Some "2026-11-02T10:00:05.000Z".
Proof.
  intros st.
  destruct (completion_signal_is_the_clock_reading ∅ ∅
              [Speak "a"; Settle 0 Fulfilled "t0" Fulfilled]
              (QueueItem "a" 0) "2026-11-02T10:00:05.000Z") as (_ & H & _).
  - reflexivity.
  - exact H.
Defined.

(* ===================================================================== *)
(** ** The configuration file                                            *)
(* ===================================================================== *)

(** *** What a written value reads back as *)

Lemma json_size_elem x l : x ∈ l → json_size x < json_size (JArr l).
Proof.
  intros H. change (json_size (JArr l)) with (S (sum_list (json_size <$> l))).
  induction H as [x l|x y l _ IH]; rewrite fmap_cons; simpl sum_list; lia.
Qed.

Lemma json_size_lookup (o : gmap string json) k x :
  o !! k = Some x → json_size x < json_size (JObj o).
Proof.
  intros H. rewrite <- (insert_delete_id o k x H).
  change (json_size (JObj ?m)) with
    (S (map_fold (λ _ x n, (json_size x + n)%nat) 0%nat m)).
  rewrite map_fold_insert_L.
  - lia.
  - intros. lia.
  - apply lookup_delete_eq.
Qed.

Lemma reread_idemp_size n : ∀ v,
  json_size v < n → reread (reread v) = reread v.
Proof.
  induction n as [|n IH]; intros v Hn; [lia|].
  destruct v as [| | | |l|o|]; simpl; try done.
  - f_equal. rewrite <- list_fmap_compose. apply list_fmap_ext.
    intros i x Hx. simpl. apply IH.
    pose proof (json_size_elem x l (list_elem_of_lookup_2 _ _ _ Hx)). lia.
  - f_equal. rewrite <- map_fmap_compose. apply map_fmap_ext.
    intros i x Hx. simpl. apply IH.
    pose proof (json_size_lookup o i x Hx). lia.
Qed.

(** Writing what was read from a written file changes nothing more. *)
Lemma reread_idemp v : reread (reread v) = reread v.
Proof. apply (reread_idemp_size (S (json_size v))). lia. Qed.


(** A string is written as it is, and only a string reads back as one. *)
Lemma reread_str v s : reread v = JStr s ↔ v = JStr s.
Proof. split; [|by intros ->]. destruct v; simpl; congruence. Qed.

(** Only an infinite number changes from truthy to falsy when written. *)
Lemma truthy_reread v :
  (∀ b, v ≠ JInf b) → truthy (Some (reread v)) = truthy (Some v).
Proof. intros H. destruct v as [| | | | | |b]; try done. by destruct (H b). Qed.

Lemma reread_completionSignal now :
  reread (completionSignal now) = completionSignal now.
Proof.
  unfold completionSignal. simpl. by f_equal.
Qed.

Lemma reread_listenSignal now : reread (listenSignal now) = listenSignal now.
Proof.
  unfold listenSignal. simpl. by f_equal.
Qed.

Lemma fresh_defaults_eq : fresh_defaults = DEFAULT_CONFIG.
Proof. apply map_eq. intros k. unfold fresh_defaults.
  repeat (rewrite lookup_insert; case_decide; [by subst|]). done.
Qed.

Lemma lookup_spread base v k :
  spread base v !! k = or_default (own_props v !! k) (base !! k).
Proof.
  unfold spread. rewrite lookup_union.
  by destruct (own_props v !! k), (base !! k).
Qed.

Lemma get_prop_field parsed k :
  parsed ≠ JNull → get_prop parsed k = Normal (field parsed k).
Proof. by destruct parsed. Qed.

Lemma merge_parsed_not_null parsed :
  parsed ≠ JNull →
  merge_parsed parsed
  = Normal
      (<["autoListen" := default (JBool true) (field parsed "autoListen")]>
      (<["wisprLoop" :=
           JObj (spread DEFAULT_WISPR_LOOP
                   (or_else (field parsed "wisprLoop") (JObj ∅)))]>
      (<["autoSubmit" :=
           JObj (spread DEFAULT_AUTO_SUBMIT
                   (or_else (field parsed "autoSubmit") (JObj ∅)))]>
      (<["voiceSettings" :=
           JObj (spread DEFAULT_VOICE_SETTINGS
                   (or_else (field parsed "voiceSettings") (JObj ∅)))]>
      (spread DEFAULT_CONFIG parsed))))).
Proof.
  intros H. unfold merge_parsed. rewrite !get_prop_field by done. simpl.
  by destruct (field parsed "autoListen").
Qed.

Lemma loadConfig_cases fs :
  (loadConfig fs = DEFAULT_CONFIG
   ∧ ∀ p, fs !! CONFIG_PATH ≠ Some (JsonText (JObj p)))
  ∨ ∃ parsed, parsed ≠ JNull
      ∧ fs !! CONFIG_PATH = Some (JsonText parsed)
      ∧ loadConfig fs = merged parsed.
Proof.
  unfold loadConfig, loadConfig_try.
  destruct (fs !! CONFIG_PATH) as [[| |parsed]|] eqn:Hf; simpl;
    try (left; split; [apply fresh_defaults_eq | congruence]).
  assert (parsed = JNull ∨ parsed ≠ JNull) as [->|Hn]
    by (destruct parsed; auto).
  - left. split; [apply fresh_defaults_eq | congruence].
  - right. exists parsed. by rewrite merge_parsed_not_null.
Qed.

Lemma loadConfig_object fs p :
  fs !! CONFIG_PATH = Some (JsonText (JObj p)) →
  loadConfig fs = merged (JObj p).
Proof.
  intros Hp.
  destruct (loadConfig_cases fs) as [[_ Hno] | (parsed & _ & Hf & ->)].
  - by destruct (Hno p).
  - rewrite Hp in Hf. by injection Hf as <-.
Qed.

Lemma merged_scalar parsed k :
  k ∈ ["apiKey"; "voiceId"; "model"] →
  merged parsed !! k = or_default (own_props parsed !! k) (DEFAULT_CONFIG !! k).
Proof.
  intros H. unfold merged.
  apply list_elem_of_In in H. simpl in H.
  destruct H as [<-|[<-|[<-|[]]]];
    rewrite !lookup_insert_ne by done; apply lookup_spread.
Qed.

Lemma merged_autoListen parsed :
  merged parsed !! "autoListen"
  = Some (default (JBool true) (field parsed "autoListen")).
Proof. unfold merged. by rewrite lookup_insert_eq. Qed.

Lemma merged_nested parsed k D :
  (k, D) ∈ nested_fields →
  merged parsed !! k = Some (JObj (spread D (or_else (field parsed k) (JObj ∅)))).
Proof.
  intros H. unfold merged.
  apply list_elem_of_In in H. simpl in H.
  destruct H as [H|[H|[H|[]]]]; injection H as <- <-.
  - rewrite !lookup_insert_ne by done. by rewrite lookup_insert_eq.
  - rewrite !lookup_insert_ne by done. by rewrite lookup_insert_eq.
  - rewrite !lookup_insert_ne by done. by rewrite lookup_insert_eq.
Qed.

Lemma default_scalar k :
  k ∈ scalar_fields → is_Some (DEFAULT_CONFIG !! k).
Proof.
  intros H. apply list_elem_of_In in H. simpl in H.
  destruct H as [<-|[<-|[<-|[<-|[]]]]]; by eexists.
Qed.

Lemma default_nested k D :
  (k, D) ∈ nested_fields → DEFAULT_CONFIG !! k = Some (JObj D).
Proof.
  intros H. apply list_elem_of_In in H. simpl in H.
  destruct H as [H|[H|[H|[]]]]; by injection H as <- <-.
Qed.

Lemma scalar_split k :
  k ∈ scalar_fields → k ∈ ["apiKey"; "voiceId"; "model"] ∨ k = "autoListen".
Proof.
  intros H. apply list_elem_of_In in H. simpl in H.
  destruct H as [<-|[<-|[<-|[<-|[]]]]]; auto;
    left; apply list_elem_of_In; simpl; auto.
Qed.

Lemma merged_scalar_all parsed k :
  k ∈ scalar_fields →
  merged parsed !! k = or_default (own_props parsed !! k) (DEFAULT_CONFIG !! k)
  ∨ (k = "autoListen"
     ∧ merged parsed !! k = or_default (field parsed k) (DEFAULT_CONFIG !! k)).
Proof.
  intros H. apply scalar_split in H as [H| ->].
  - left. by apply merged_scalar.
  - right. split; [done|]. rewrite merged_autoListen.
    by destruct (field parsed "autoListen").
Qed.

(** C8.  [loadConfig] returns a configuration for every state of the file
    system: when its [try] block throws, whatever the error, the result is
    the default configuration.  So it is when config.json is absent,
    cannot be read or is not JSON.  Whatever the file holds, the result has the
    four scalar fields, and the three nested records with every field their
    defaults have.  When the file holds an object, a scalar field present
    in it keeps its value and a missing one takes the default; a nested
    record missing from it is the default record; and a nested record
    present in it keeps each field it has and takes the default for each
    field it lacks. *)
Theorem loadConfig_total_and_complete fs :
  (∀ e, loadConfig_try fs = Throw e → loadConfig fs = DEFAULT_CONFIG)
  ∧ (fs !! CONFIG_PATH = None ∨ fs !! CONFIG_PATH = Some Unreadable
     ∨ fs !! CONFIG_PATH = Some Malformed →
     loadConfig fs = DEFAULT_CONFIG)
  ∧ (∀ k, k ∈ scalar_fields → is_Some (loadConfig fs !! k))
  ∧ (∀ k D, (k, D) ∈ nested_fields →
       ∃ o, loadConfig fs !! k = Some (JObj o)
            ∧ ∀ j, is_Some (D !! j) → is_Some (o !! j))
  ∧ ∀ p, fs !! CONFIG_PATH = Some (JsonText (JObj p)) →
      (∀ k, k ∈ scalar_fields →
         loadConfig fs !! k = or_default (p !! k) (DEFAULT_CONFIG !! k))
      ∧ ∀ k D, (k, D) ∈ nested_fields →
          (p !! k = None → loadConfig fs !! k = Some (JObj D))
          ∧ ∀ n, p !! k = Some (JObj n) →
              ∃ o, loadConfig fs !! k = Some (JObj o)
                   ∧ ∀ j, o !! j = or_default (n !! j) (D !! j).
Proof.
  split; [|split; [|split; [|split]]].
  - intros e H. unfold loadConfig. rewrite H. apply fresh_defaults_eq.
  - intros H. unfold loadConfig, loadConfig_try.
    destruct H as [-> | [-> | ->]]; simpl; apply fresh_defaults_eq.
  - intros k Hk.
    destruct (loadConfig_cases fs) as [[-> _] | (parsed & _ & _ & ->)].
    + by apply default_scalar.
    + destruct (default_scalar k Hk) as [x Hx].
      destruct (merged_scalar_all parsed k Hk) as [-> | [_ ->]];
        rewrite Hx; unfold or_default; by case_match.
  - intros k D Hk.
    destruct (loadConfig_cases fs) as [[-> _] | (parsed & _ & _ & ->)].
    + exists D. split; [by apply default_nested | done].
    + eexists. split; [by apply merged_nested|].
      intros j [x Hx]. rewrite lookup_spread, Hx.
      unfold or_default; by case_match.
  - intros p Hp. rewrite (loadConfig_object fs p Hp). split.
    + intros k Hk. by destruct (merged_scalar_all (JObj p) k Hk) as [-> | [_ ->]].
    + intros k D Hk. rewrite (merged_nested _ _ _ Hk). simpl. split.
      * intros ->. simpl. unfold spread. simpl. by rewrite (left_id_L ∅ (∪)).
      * intros n ->. simpl. eexists. split; [done|].
        intros j. apply lookup_spread.
Qed.

Lemma loadConfig_total_and_complete_witness :
  let fs : gmap string file :=
    {[ CONFIG_PATH :=
         JsonText (JObj {[ "voiceId" := JStr "v1";
                           "voiceSettings" :=
                             JObj {[ "speed" := JNum 1.1%Q ]} ]}) ]} in
  loadConfig ∅ = DEFAULT_CONFIG
  ∧ loadConfig fs !! "voiceId" = Some (JStr "v1")
  ∧ loadConfig fs !! "model" = Some (JStr "eleven_flash_v2_5").
Proof.
  intros fs. split; [|split].
  - destruct (loadConfig_total_and_complete ∅) as (_ & H & _).
    apply H. by left.
  - destruct (loadConfig_total_and_complete fs) as (_ & _ & _ & _ & H).
    destruct (H {[ "voiceId" := JStr "v1";
                   "voiceSettings" := JObj {[ "speed" := JNum 1.1%Q ]} ]})
      as [Hs _]; [reflexivity|].
    apply (Hs "voiceId"). apply list_elem_of_In. simpl. auto.
  - destruct (loadConfig_total_and_complete fs) as (_ & _ & _ & _ & H).
    destruct (H {[ "voiceId" := JStr "v1";
                   "voiceSettings" := JObj {[ "speed" := JNum 1.1%Q ]} ]})
      as [Hs _]; [reflexivity|].
    apply (Hs "model"). apply list_elem_of_In. simpl. auto.
Defined.

(* ===================================================================== *)
(** ** The settings API                                                  *)
(* ===================================================================== *)

Lemma chars_length s : length (chars s) = String.length s.
Proof. induction s; simpl; auto. Qed.

Lemma chars_app s1 s2 : chars (s1 +:+ s2) = chars s1 ++ chars s2.
Proof. induction s1; simpl; [done|]. by f_equal. Qed.

Lemma chars_substring s : ∀ n m,
  chars (String.substring n m s) = take m (drop n (chars s)).
Proof.
  induction s as [|c s IH]; intros n m.
  - by destruct n, m.
  - destruct n as [|n]; simpl.
    + destruct m as [|m]; simpl; [done|]. f_equal. apply (IH 0 m).
    + apply IH.
Qed.

Lemma chars_inj s1 s2 : chars s1 = chars s2 → s1 = s2.
Proof.
  revert s2. induction s1 as [|c s1 IH]; intros [|c2 s2] H; try done.
  simpl in H. injection H as -> H. f_equal. by apply IH.
Qed.

(** [maskKey] computes the mask in words. *)
Lemma maskKey_in_words key : chars (maskKey key) = mask_in_words (chars key).
Proof.
  unfold maskKey, mask_in_words. rewrite chars_length.
  destruct (Nat.leb_spec (String.length key) 8) as [H|H].
  - by rewrite decide_True.
  - rewrite decide_False by lia.
    rewrite !chars_app, !chars_substring, drop_0.
    do 2 f_equal. apply take_ge. rewrite length_drop, chars_length. lia.
Qed.

(** The mask is the key itself only for two shapes of key. *)
Lemma maskKey_fixpoint key :
  maskKey key = key
  ↔ key = "****"
    ∨ (String.length key = 12 ∧ String.substring 4 4 key = "****").
Proof.
  split.
  - intros H. apply (f_equal chars) in H. rewrite maskKey_in_words in H.
    unfold mask_in_words in H. rewrite chars_length in H.
    destruct (decide (String.length key ≤ 8)) as [Hle|Hgt].
    + left. by apply chars_inj.
    + right. assert (Hlen : String.length key = 12).
      { apply (f_equal length) in H.
        rewrite !length_app, length_take, length_drop, !chars_length in H.
        change (String.length "****") with 4 in H. lia. }
      split; [done|]. apply chars_inj. rewrite chars_substring.
      rewrite <- H at 1. rewrite Hlen.
      rewrite drop_app_length'; [|rewrite length_take, chars_length; lia].
      rewrite take_app_length'; done.
  - intros [-> | [Hlen Hmid]]; [done|].
    apply chars_inj. rewrite maskKey_in_words. unfold mask_in_words.
    rewrite chars_length, Hlen. rewrite decide_False by lia.
    apply (f_equal chars) in Hmid. rewrite chars_substring in Hmid.
    change (chars "****") with (chars "****") in *. rewrite <- Hmid.
    simpl. rewrite <- (take_drop 4 (chars key)) at 4.
    f_equal. rewrite <- (take_drop 4 (drop 4 (chars key))) at 2.
    f_equal. by rewrite drop_drop.
Qed.

Lemma masked_view_apiKey config key :
  config !! "apiKey" = Some (JStr key) →
  ∃ view, masked_view config = Some view
    ∧ view !! "apiKey"
      = Some (JStr (if String.eqb key "" then "" else maskKey key))
    ∧ view !! "apiKeySet" = Some (JBool (negb (String.eqb key ""))).
Proof.
  intros H. unfold masked_view, masked. rewrite H. simpl.
  destruct (String.eqb key ""); simpl; eexists; (split; [done|]);
    unfold set_prop at 1 2; split;
    rewrite ?lookup_insert_eq, ?lookup_insert_ne by done;
    by rewrite ?lookup_insert_eq.
Qed.

Lemma loadConfig_keys fs k :
  is_Some (DEFAULT_CONFIG !! k) → is_Some (loadConfig fs !! k).
Proof.
  intros [x Hx].
  destruct (loadConfig_cases fs) as [[-> _] | (parsed & _ & _ & ->)];
    [by eexists|].
  unfold merged. repeat (rewrite lookup_insert; case_decide; [by eexists|]).
  rewrite lookup_spread, Hx. unfold or_default. by case_match.
Qed.

Lemma loadConfig_nested fs k D :
  (k, D) ∈ nested_fields →
  ∃ o, loadConfig fs !! k = Some (JObj o)
    ∧ ∀ j, is_Some (D !! j) → is_Some (o !! j).
Proof.
  intros Hk.
  destruct (loadConfig_cases fs) as [[-> _] | (parsed & _ & _ & ->)].
  - exists D. split; [by apply default_nested | done].
  - eexists. split; [by apply merged_nested|].
    intros j [x Hx]. rewrite lookup_spread, Hx.
    unfold or_default; by case_match.
Qed.

(** A record that has every field of the defaults is read back as it was
    written. *)
Lemma spread_reread (D o : gmap string json) :
  (∀ j, is_Some (D !! j) → is_Some (o !! j)) →
  spread D (JObj (reread <$> o)) = reread <$> o.
Proof.
  intros H. unfold spread. apply map_eq. intros j.
  change (own_props (JObj (reread <$> o))) with (reread <$> o).
  rewrite lookup_union, lookup_fmap.
  destruct (o !! j) as [x|] eqn:Ho; simpl.
  - by destruct (D !! j).
  - destruct (D !! j) as [y|] eqn:HD; [|done].
    destruct (H j) as [z Hz]; [by eexists|congruence].
Qed.

(** What [loadConfig] makes of a file written by [saveConfig]. *)
Lemma loadConfig_saved saved fs :
  loadConfig (<[CONFIG_PATH := JsonText (JObj (reread <$> saved))]> fs)
  = merged (JObj (reread <$> saved)).
Proof. apply loadConfig_object, lookup_insert_eq. Qed.

Lemma loadConfig_written saved fs k :
  k ∈ ["apiKey"; "voiceId"; "model"] →
  is_Some (saved !! k) →
  loadConfig (<[CONFIG_PATH := JsonText (JObj (reread <$> saved))]> fs) !! k
  = reread <$> saved !! k.
Proof.
  intros Hk [x Hx]. rewrite loadConfig_saved, merged_scalar by done.
  change (own_props (JObj (reread <$> saved))) with (reread <$> saved).
  by rewrite lookup_fmap, Hx.
Qed.

(** The stored key "abcd****efgh" is returned as it is, and for the empty
    key the field is not [maskKey] of it. *)
Lemma api_key_field_counterexamples :
  get_api_config
    {[ CONFIG_PATH := JsonText (JObj {[ "apiKey" := JStr "abcd****efgh" ]}) ]}
    ≫= (.!! "apiKey") = Some (JStr "abcd****efgh")
  ∧ get_api_config ∅ ≫= (.!! "apiKey") = Some (JStr "")
  ∧ maskKey "" = "****".
Proof. vm_compute. auto. Qed.

(** C9, as the code has it.  For a stored key that is a non-empty string,
    the [apiKey] field of the answer to GET /api/config, and of the answer
    to a POST /api/config whose write goes through (the key being then the
    one just saved), is [maskKey] of the key; for the empty key it is the
    empty string.  [maskKey] is four stars for a key of at most eight
    characters and otherwise the first four characters, four stars and the
    last four characters; it is the key itself exactly when the key is
    four stars, or has twelve characters of which the middle four are
    stars. *)
Theorem api_key_field_is_masked fs body key :
  (loadConfig fs !! "apiKey" = Some (JStr key) →
     ∃ view, get_api_config fs = Some view
       ∧ view !! "apiKey"
         = Some (JStr (if String.eqb key "" then "" else maskKey key)))
  ∧ (loadConfig (post_api_config Fulfilled body fs).2 !! "apiKey"
       = Some (JStr key) →
     ∃ view, (post_api_config Fulfilled body fs).1
             = Normal (Some {[ "success" := JBool true;
                               "config" := JObj view ]})
       ∧ view !! "apiKey"
         = Some (JStr (if String.eqb key "" then "" else maskKey key)))
  ∧ chars (maskKey key) = mask_in_words (chars key)
  ∧ (maskKey key = key
     ↔ key = "****"
       ∨ (String.length key = 12 ∧ String.substring 4 4 key = "****")).
Proof.
  split; [|split; [|split]].
  - intros H. destruct (masked_view_apiKey _ _ H) as (view & ? & ? & _).
    by exists view.
  - unfold post_api_config, saveConfig. simpl.
    set (saved := collect_updates body ∪ loadConfig fs).
    intros H.
    assert (Hs : is_Some (saved !! "apiKey")).
    { unfold saved. apply lookup_union_is_Some. right.
      apply loadConfig_keys. by eexists. }
    rewrite loadConfig_written in H; [|apply list_elem_of_In; simpl; auto|done].
    destruct Hs as [x Hx]. rewrite Hx in H. injection H as H.
    apply reread_str in H as ->.
    destruct (masked_view_apiKey _ _ Hx) as (view & Hv & Hk & _).
    exists view. by rewrite Hv.
  - apply maskKey_in_words.
  - apply maskKey_fixpoint.
Qed.

Lemma api_key_field_is_masked_witness :
  ∃ view,
    get_api_config
      {[ CONFIG_PATH :=
           JsonText (JObj {[ "apiKey" := JStr "sk_0123456789abcdef" ]}) ]}
    = Some view
    ∧ view !! "apiKey" = Some (JStr "sk_0****cdef").
Proof.
  destruct (api_key_field_is_masked
              {[ CONFIG_PATH :=
                   JsonText (JObj {[ "apiKey" := JStr "sk_0123456789abcdef" ]}) ]}
              ∅ "sk_0123456789abcdef") as [H _].
  apply H. vm_compute. reflexivity.
Defined.

Lemma copy_defined_lookup k' body u k :
  copy_defined k' body u !! k
  = if decide (k' = k) then or_default (body !! k') (u !! k) else u !! k.
Proof.
  unfold copy_defined. destruct (body !! k') as [v|] eqn:Hb.
  - rewrite lookup_insert. by case_decide.
  - by case_decide.
Qed.

Lemma collect_updates_body body k :
  k ∈ body_fields → collect_updates body !! k = body !! k.
Proof.
  intros H. apply list_elem_of_In in H. simpl in H. unfold collect_updates.
  assert (Hk : ∀ u : gmap string json, k ≠ "apiKey" →
            match body !! "apiKey" with
            | Some v => if not_empty_string v then <["apiKey" := v]> u else u
            | None => u
            end !! k = u !! k).
  { intros u Hne. destruct (body !! "apiKey") as [v|]; [|done].
    destruct (not_empty_string v); [|done]. by rewrite lookup_insert_ne. }
  destruct H as [<-|[<-|[<-|[<-|[<-|[<-|[]]]]]]];
    rewrite !copy_defined_lookup; simpl; rewrite Hk by done;
    clear Hk; rewrite lookup_empty; unfold or_default; by case_match.
Qed.




(** Saving what was loaded and loading it again gives the fields as they
    are written. *)
Lemma loadConfig_reload saved fs fs0 k :
  saved !! k = loadConfig fs0 !! k →
  (∀ j, is_Some (DEFAULT_CONFIG !! j) → is_Some (saved !! j)) →
  loadConfig (<[CONFIG_PATH := JsonText (JObj (reread <$> saved))]> fs) !! k
  = reread <$> loadConfig fs0 !! k.
Proof.
  intros Hk Hall. rewrite loadConfig_saved. unfold merged.
  rewrite !lookup_insert.
  assert (Hnest : ∀ D, (k, D) ∈ nested_fields →
            Some (JObj (spread D
                    (or_else (field (JObj (reread <$> saved)) k) (JObj ∅))))
            = reread <$> loadConfig fs0 !! k).
  { intros D HD. destruct (loadConfig_nested fs0 k D HD) as (o & Ho & Hdom).
    change (field (JObj (reread <$> saved)) k) with ((reread <$> saved) !! k).
    rewrite lookup_fmap, Hk, Ho. simpl. by rewrite spread_reread. }
  repeat case_decide; subst.
  - destruct (loadConfig_keys fs0 "autoListen") as [x Hx]; [by eexists|].
    change (field (JObj (reread <$> saved)) "autoListen")
      with ((reread <$> saved) !! "autoListen").
    by rewrite lookup_fmap, Hk, Hx.
  - apply Hnest, list_elem_of_In. simpl. auto.
  - apply Hnest, list_elem_of_In. simpl. auto.
  - apply Hnest, list_elem_of_In. simpl. auto.
  - rewrite lookup_spread.
    change (own_props (JObj (reread <$> saved))) with (reread <$> saved).
    rewrite lookup_fmap, Hk.
    destruct (loadConfig fs0 !! k) as [x|] eqn:Hx; [done|]. simpl.
    destruct (DEFAULT_CONFIG !! k) as [y|] eqn:Hy; [|done].
    destruct (Hall k) as [z Hz]; [by eexists|]. congruence.
Qed.

(** config.json holds a key and a speed beyond the range of numbers, which
    is read as an infinite number.  A POST /api/config with an empty body,
    whose write goes through, writes that speed as [null]: the field
    [voiceSettings], absent from the body, is no more what it was.  And
    when the write fails after the file was opened, the stored key is
    lost. *)
Lemma post_can_change_an_absent_field :
  let fs : gmap string file :=
    {[ CONFIG_PATH :=
         JsonText (JObj {[ "apiKey" := JStr "sk_0123456789abcdef";
                           "voiceSettings" :=
                             JObj {[ "speed" := JInf false ]} ]}) ]} in
  let fs1 := (post_api_config Fulfilled ∅ fs).2 in
  let fs2 := (post_api_config (Aborted "ENOSPC") ∅ fs).2 in
  (loadConfig fs !! "voiceSettings") ≫= (λ v, field v "speed")
    = Some (JInf false)
  ∧ (loadConfig fs1 !! "voiceSettings") ≫= (λ v, field v "speed")
    = Some JNull
  ∧ loadConfig fs !! "apiKey" = Some (JStr "sk_0123456789abcdef")
  ∧ (post_api_config (Aborted "ENOSPC") ∅ fs).1 = Throw "ENOSPC"
  ∧ fs2 !! CONFIG_PATH = Some Malformed
  ∧ loadConfig fs2 !! "apiKey" = Some (JStr "").
Proof. vm_compute. auto 10. Qed.



(* ===================================================================== *)
(** ** More on the configuration file                                    *)
(* ===================================================================== *)

Lemma set_prop_lookup k v (o : gmap string json) : set_prop k v o !! k = v.
Proof.
  unfold set_prop. destruct v.
  - apply lookup_insert_eq.
  - apply lookup_delete_eq.
Qed.

Lemma set_prop_lookup_ne k k' v (o : gmap string json) :
  k ≠ k' → set_prop k v o !! k' = o !! k'.
Proof.
  intros H. unfold set_prop. destruct v.
  - by apply lookup_insert_ne.
  - by apply lookup_delete_ne.
Qed.

Lemma pretty_N_go_digit x : ∀ s,
  (0 < x)%N ∨ starts_with_digit s → starts_with_digit (pretty_N_go x s).
Proof.
  induction (N.lt_wf_0 x) as [x _ IH]; intros s H.
  assert (x = 0 ∨ 0 < x)%N as [->|Hx] by lia.
  - rewrite pretty_N_go_0. destruct H as [H|H]; [lia|done].
  - rewrite pretty_N_go_step by done. apply IH.
    + by apply N.div_lt.
    + right. simpl. unfold pretty_N_char.
      repeat case_match; vm_compute; lia.
Qed.

Lemma pretty_nat_digit (i : nat) : starts_with_digit (pretty i).
Proof.
  unfold pretty, pretty_nat, pretty, pretty_N.
  case_decide as H.
  - vm_compute. lia.
  - apply pretty_N_go_digit. left. lia.
Qed.

Lemma index_props_lookup {A} (f : A → json) (l : list A) k :
  ¬ starts_with_digit k →
  (list_to_map (imap (λ i x, (pretty i, f x)) l) : gmap string json) !! k
  = None.
Proof.
  intros Hk. apply not_elem_of_list_to_map_1. intros Hin.
  apply list_elem_of_fmap in Hin as ([k' v] & -> & Hin).
  apply elem_of_lookup_imap in Hin as (i & x & Heq & _).
  injection Heq as -> _. simpl in Hk. apply Hk, pretty_nat_digit.
Qed.

(** Object spread of a value that is not an object adds no property whose
    name does not start with a digit. *)
Lemma own_props_not_object v k :
  (∀ o, v ≠ JObj o) → ¬ starts_with_digit k → own_props v !! k = None.
Proof.
  intros Hv Hk. destruct v as [| | |s|l|o|b]; simpl; try done.
  - by apply (index_props_lookup (λ c, JStr (String c EmptyString))).
  - by apply (index_props_lookup id).
  - by destruct (Hv o).
Qed.

Lemma config_field_no_digit k : k ∈ config_fields → ¬ starts_with_digit k.
Proof.
  intros H. apply list_elem_of_In in H. simpl in H.
  destruct H as [<-|[<-|[<-|[<-|[<-|[<-|[<-|[]]]]]]]]; vm_compute; lia.
Qed.



Lemma field_not_object v k : (∀ o, v ≠ JObj o) → field v k = None.
Proof. intros H. destruct v; try done. by destruct (H o). Qed.

Lemma nested_key_no_digit k D j :
  (k, D) ∈ nested_fields → is_Some (D !! j) → ¬ starts_with_digit j.
Proof.
  intros H [x Hx]. apply list_elem_of_In in H. simpl in H.
  destruct H as [H|[H|[H|[]]]]; injection H as <- <-;
    [unfold DEFAULT_VOICE_SETTINGS in Hx
    |unfold DEFAULT_AUTO_SUBMIT in Hx
    |unfold DEFAULT_WISPR_LOOP in Hx];
    repeat (rewrite lookup_insert in Hx; case_decide;
            [subst; vm_compute; lia|]);
    rewrite lookup_singleton in Hx; case_decide; try done;
    subst; vm_compute; lia.
Qed.

(** X1.  A non-empty ELEVENLABS_API_KEY (ELEVENLABS_VOICE_ID) replaces
    the key (voice) of config.json in the effective configuration; when
    the variable is unset or empty, the value of the file is used. *)
Theorem effective_env_overrides env fs :
  let c := getEffectiveConfig env fs in
  (∀ k, env !! "ELEVENLABS_API_KEY" = Some k → k ≠ "" →
     c !! "apiKey" = Some (JStr k))
  ∧ (env !! "ELEVENLABS_API_KEY" = None
     ∨ env !! "ELEVENLABS_API_KEY" = Some "" →
     c !! "apiKey" = loadConfig fs !! "apiKey")
  ∧ (∀ v, env !! "ELEVENLABS_VOICE_ID" = Some v → v ≠ "" →
     c !! "voiceId" = Some (JStr v))
  ∧ (env !! "ELEVENLABS_VOICE_ID" = None
     ∨ env !! "ELEVENLABS_VOICE_ID" = Some "" →
     c !! "voiceId" = loadConfig fs !! "voiceId").
Proof.
  intros c. subst c. unfold getEffectiveConfig.
  assert (Hne : ∀ k : string, k ≠ "" →
            truthy (JStr <$> Some k) = true).
  { intros k Hk. simpl. apply negb_true_iff, String.eqb_neq. done. }
  split; [|split; [|split]].
  - intros k Hk Hnn. rewrite set_prop_lookup, Hk.
    unfold or_undef. by rewrite Hne.
  - intros [H|H]; rewrite set_prop_lookup, H; done.
  - intros v Hv Hnn. rewrite set_prop_lookup_ne by done.
    rewrite set_prop_lookup, Hv. unfold or_undef. by rewrite Hne.
  - intros [H|H]; rewrite set_prop_lookup_ne by done;
      rewrite set_prop_lookup, H; done.
Qed.

Lemma effective_env_overrides_witness :
  getEffectiveConfig {[ "ELEVENLABS_API_KEY" := "sk_env" ]}
    {[ CONFIG_PATH := JsonText (JObj {[ "apiKey" := JStr "sk_file" ]}) ]}
    !! "apiKey" = Some (JStr "sk_env")
  ∧ getEffectiveConfig {[ "ELEVENLABS_API_KEY" := "" ]}
      {[ CONFIG_PATH := JsonText (JObj {[ "apiKey" := JStr "sk_file" ]}) ]}
      !! "apiKey" = Some (JStr "sk_file").
Proof.
  split.
  - destruct (effective_env_overrides {[ "ELEVENLABS_API_KEY" := "sk_env" ]}
        {[ CONFIG_PATH := JsonText (JObj {[ "apiKey" := JStr "sk_file" ]}) ]})
      as [H _].
    apply H; [reflexivity|discriminate].
  - destruct (effective_env_overrides {[ "ELEVENLABS_API_KEY" := "" ]}
        {[ CONFIG_PATH := JsonText (JObj {[ "apiKey" := JStr "sk_file" ]}) ]})
      as (_ & H & _).
    rewrite H; [vm_compute; reflexivity|right; reflexivity].
Defined.

(** X2.  The effective model is never empty: it is the model of
    config.json when that is truthy, and the default model otherwise. *)
Theorem effective_model_is_set env fs :
  let c := getEffectiveConfig env fs in
  truthy (c !! "model") = true
  ∧ c !! "model"
    = if truthy (loadConfig fs !! "model") then loadConfig fs !! "model"
      else Some (JStr "eleven_flash_v2_5").
Proof.
  intros c. subst c. unfold getEffectiveConfig.
  rewrite !set_prop_lookup_ne by done. rewrite set_prop_lookup.
  unfold or_undef. destruct (truthy (loadConfig fs !! "model")) eqn:H; done.
Qed.

(** X3.  The environment touches nothing but the key and the voice: the
    four other records and flags of the effective configuration are those
    [loadConfig] returns, and a property of config.json that is not a
    field of [Config] is not part of the effective configuration. *)
Theorem effective_config_frame env fs :
  let c := getEffectiveConfig env fs in
  (∀ k, k ∈ ["voiceSettings"; "autoSubmit"; "wisprLoop"; "autoListen"] →
     c !! k = loadConfig fs !! k)
  ∧ (∀ k, k ∉ config_fields → c !! k = None).
Proof.
  intros c. subst c. unfold getEffectiveConfig. split.
  - intros k H. apply list_elem_of_In in H. simpl in H.
    destruct H as [<-|[<-|[<-|[<-|[]]]]];
      rewrite !set_prop_lookup_ne by done; apply set_prop_lookup.
  - intros k H.
    assert (Hk : ∀ k', k' ∈ config_fields → k' ≠ k) by (intros k' ? ->; done).
    rewrite !set_prop_lookup_ne; [done|apply Hk, list_elem_of_In; simpl; auto 10..].
Qed.

Lemma effective_config_frame_witness :
  getEffectiveConfig ∅
    {[ CONFIG_PATH := JsonText (JObj {[ "debug" := JBool true ]}) ]}
    !! "debug" = None.
Proof.
  destruct (effective_config_frame ∅
              {[ CONFIG_PATH := JsonText (JObj {[ "debug" := JBool true ]}) ]})
    as [_ H].
  apply H. intros Hin. apply list_elem_of_In in Hin. simpl in Hin.
  repeat (destruct Hin as [Hin|Hin]; [discriminate|]). done.
Defined.



(** X5.  When config.json holds valid JSON that is not an object (null, a
    boolean, a number, a string or an array), every field of the result of
    [loadConfig] has its default value. *)
Theorem loadConfig_not_an_object fs v k :
  fs !! CONFIG_PATH = Some (JsonText v) →
  (∀ o, v ≠ JObj o) →
  k ∈ config_fields →
  loadConfig fs !! k = DEFAULT_CONFIG !! k.
Proof.
  intros Hf Hv Hk.
  destruct (loadConfig_cases fs) as [[-> _] | (parsed & _ & Hf' & ->)];
    [done|].
  rewrite Hf in Hf'. injection Hf' as <-.
  pose proof (config_field_no_digit k Hk) as Hd.
  apply list_elem_of_In in Hk. simpl in Hk.
  assert (Hnest : ∀ D, (k, D) ∈ nested_fields →
            merged v !! k = DEFAULT_CONFIG !! k).
  { intros D HD. rewrite (merged_nested _ _ _ HD), (default_nested _ _ HD).
    rewrite field_not_object by done. simpl. unfold spread. simpl.
    by rewrite (left_id_L ∅ (∪)). }
  destruct Hk as [<-|[<-|[<-|[<-|[<-|[<-|[<-|[]]]]]]]].
  1-3: rewrite merged_scalar by (apply list_elem_of_In; simpl; auto);
       by rewrite own_props_not_object.
  - by rewrite merged_autoListen, field_not_object.
  - apply (Hnest DEFAULT_VOICE_SETTINGS), list_elem_of_In. simpl. auto.
  - apply (Hnest DEFAULT_AUTO_SUBMIT), list_elem_of_In. simpl. auto.
  - apply (Hnest DEFAULT_WISPR_LOOP), list_elem_of_In. simpl. auto.
Qed.

Lemma loadConfig_not_an_object_witness :
  loadConfig {[ CONFIG_PATH := JsonText (JArr [JStr "x"; JNum 1%Q]) ]}
    !! "model" = Some (JStr "eleven_flash_v2_5").
Proof.
  rewrite (loadConfig_not_an_object
             {[ CONFIG_PATH := JsonText (JArr [JStr "x"; JNum 1%Q]) ]}
             (JArr [JStr "x"; JNum 1%Q]) "model").
  - reflexivity.
  - reflexivity.
  - discriminate.
  - apply list_elem_of_In. simpl. auto.
Defined.

(** X6.  A nested record of config.json that is present but is not an
    object does not survive: every field of the default record has its
    default value in the result, and when the value is falsy (null, false,
    zero, the empty string) the result is the default record itself. *)
Theorem nested_record_not_an_object fs p k D v :
  fs !! CONFIG_PATH = Some (JsonText (JObj p)) →
  (k, D) ∈ nested_fields →
  p !! k = Some v →
  (∀ o, v ≠ JObj o) →
  ∃ o, loadConfig fs !! k = Some (JObj o)
    ∧ (∀ j, is_Some (D !! j) → o !! j = D !! j)
    ∧ (truthy (Some v) = false → o = D).
Proof.
  intros Hp HD Hv Hno.
  rewrite (loadConfig_object fs p Hp), (merged_nested _ _ _ HD).
  change (field (JObj p) k) with (p !! k).
  rewrite Hv. eexists. split; [done|]. split.
  - intros j Hj. rewrite lookup_spread.
    pose proof (nested_key_no_digit _ _ _ HD Hj) as Hd.
    unfold or_else. destruct (truthy (Some v)) eqn:Ht.
    + by rewrite own_props_not_object.
    + simpl. by rewrite lookup_empty.
  - intros Ht. unfold or_else. rewrite Ht. unfold spread. simpl.
    by rewrite (left_id_L ∅ (∪)).
Qed.

Lemma nested_record_not_an_object_witness :
  loadConfig
    {[ CONFIG_PATH := JsonText (JObj {[ "voiceSettings" := JNull ]}) ]}
    !! "voiceSettings" = Some (JObj DEFAULT_VOICE_SETTINGS).
Proof.
  destruct (nested_record_not_an_object
              {[ CONFIG_PATH := JsonText (JObj {[ "voiceSettings" := JNull ]}) ]}
              {[ "voiceSettings" := JNull ]} "voiceSettings"
              DEFAULT_VOICE_SETTINGS JNull) as (o & Ho & _ & Heq).
  - reflexivity.
  - apply list_elem_of_In. simpl. auto.
  - reflexivity.
  - discriminate.
  - rewrite Ho, Heq; reflexivity.
Defined.




(* ===================================================================== *)
(** ** More on the settings API                                          *)
(* ===================================================================== *)

(** X9.  The mask has four characters for a key of at most eight
    characters and twelve otherwise: it is never empty, and its length
    tells no more of the length of the key than whether it exceeds
    eight. *)
Theorem maskKey_length key :
  String.length (maskKey key)
  = if decide (String.length key ≤ 8) then 4 else 12.
Proof.
  rewrite <- !chars_length, maskKey_in_words. unfold mask_in_words.
  rewrite chars_length. case_decide; [done|].
  rewrite !length_app, length_take, length_drop, chars_length.
  change (length (chars "****")) with 4. lia.
Qed.

(** X10.  Of a key made of four characters, a non-empty middle and four
    characters, the mask shows the first four and the last four and
    nothing of the middle: it is the same for every middle. *)
Theorem maskKey_hides_the_middle a m b :
  String.length a = 4 → String.length b = 4 → m ≠ "" →
  maskKey (a +:+ m +:+ b) = a +:+ "****" +:+ b.
Proof.
  intros Ha Hb Hm. apply chars_inj.
  rewrite maskKey_in_words. unfold mask_in_words.
  assert (Hlm : 0 < length (chars m)).
  { rewrite chars_length. destruct m; [done|simpl; lia]. }
  rewrite !chars_app, !length_app.
  rewrite <- chars_length in Ha, Hb.
  rewrite decide_False by lia. f_equal; [|f_equal].
  - by rewrite take_app_length'.
  - rewrite app_assoc.
    rewrite drop_app_length'; [done|]. rewrite length_app. lia.
Qed.

Lemma maskKey_hides_the_middle_witness :
  maskKey ("sk_0" +:+ "123456789ab" +:+ "cdef") = "sk_0" +:+ "****" +:+ "cdef".
Proof.
  apply (maskKey_hides_the_middle "sk_0" "123456789ab" "cdef");
    [reflexivity | reflexivity | discriminate].
Defined.

Lemma masked_view_fields c view :
  masked_view c = Some view →
  Some (view !! "apiKey") = Some (masked (c !! "apiKey"))
  ∧ view !! "apiKeySet" = Some (JBool (truthy (c !! "apiKey")))
  ∧ (∀ k, k ∈ body_fields → view !! k = c !! k)
  ∧ (∀ k, k ∉ view_fields → view !! k = None).
Proof.
  unfold masked_view. destruct (masked (c !! "apiKey")) as [m|]; [|done].
  intros [= <-]. split; [|split; [|split]].
  - by rewrite lookup_insert_eq.
  - rewrite lookup_insert_ne by done. by rewrite lookup_insert_eq.
  - intros k H. apply list_elem_of_In in H. simpl in H.
    destruct H as [<-|[<-|[<-|[<-|[<-|[<-|[]]]]]]];
      rewrite !lookup_insert_ne by done;
      rewrite ?set_prop_lookup_ne by done; apply set_prop_lookup.
  - intros k H.
    assert (Hk : ∀ k', k' ∈ view_fields → k' ≠ k) by (intros k' ? ->; done).
    rewrite !lookup_insert_ne by (apply Hk, list_elem_of_In; simpl; auto 10).
    rewrite !set_prop_lookup_ne; [done|apply Hk, list_elem_of_In; simpl; auto 10..].
Qed.

Lemma maskKey_not_empty key : maskKey key ≠ "".
Proof.
  intros H. apply (f_equal chars) in H. rewrite maskKey_in_words in H.
  unfold mask_in_words in H. case_decide; [done|].
  apply (f_equal length) in H. rewrite !length_app in H.
  change (length (chars "****")) with 4 in H. simpl in H. lia.
Qed.

(** X11.  For a stored key that is a string, the answer to GET
    /api/config has the eight fields of the view and no other, so that a
    property of config.json that is not a field of [Config] is never
    sent; the six fields other than the key are those [loadConfig]
    returns; [apiKeySet] is true exactly when the key is not empty, and
    the [apiKey] field is empty exactly when the key is. *)
Theorem get_api_config_shape fs key :
  loadConfig fs !! "apiKey" = Some (JStr key) →
  ∃ view, get_api_config fs = Some view
    ∧ (∀ k, is_Some (view !! k) ↔ k ∈ view_fields)
    ∧ (∀ k, k ∈ body_fields → view !! k = loadConfig fs !! k)
    ∧ (view !! "apiKeySet" = Some (JBool true) ↔ key ≠ "")
    ∧ (view !! "apiKey" = Some (JStr "") ↔ key = "").
Proof.
  intros Hkey.
  destruct (masked_view_apiKey _ _ Hkey) as (view & Hv & Hk & Hset).
  exists view. split; [done|].
  destruct (masked_view_fields _ _ Hv) as (_ & _ & Hbody & Hother).
  split; [|split; [done|split]].
  - intros k. split.
    + intros Hs. destruct (decide (k ∈ view_fields)) as [|Hn]; [done|].
      rewrite (Hother k Hn) in Hs. by destruct Hs.
    + intros Hin. unfold view_fields in Hin.
      apply elem_of_cons in Hin as [->|Hin]; [by eexists|].
      apply elem_of_cons in Hin as [->|Hin]; [by eexists|].
      rewrite (Hbody k Hin).
      apply loadConfig_keys. apply list_elem_of_In in Hin. simpl in Hin.
      destruct Hin as [<-|[<-|[<-|[<-|[<-|[<-|[]]]]]]]; by eexists.
  - rewrite Hset. destruct (String.eqb_spec key ""); simpl;
      split; congruence.
  - rewrite Hk. destruct (String.eqb_spec key ""); [done|].
    split; [|done]. intros [= H]. by destruct (maskKey_not_empty key).
Qed.

Lemma get_api_config_shape_witness :
  ∃ view,
    get_api_config
      {[ CONFIG_PATH :=
           JsonText (JObj {[ "apiKey" := JStr "sk_0123456789abcdef";
                             "theme" := JStr "dark" ]}) ]}
    = Some view
    ∧ view !! "theme" = None.
Proof.
  destruct (get_api_config_shape
      {[ CONFIG_PATH :=
           JsonText (JObj {[ "apiKey" := JStr "sk_0123456789abcdef";
                             "theme" := JStr "dark" ]}) ]}
      "sk_0123456789abcdef") as (view & Hv & Hdom & _).
  - vm_compute. reflexivity.
  - exists view. split; [exact Hv|].
    destruct (view !! "theme") as [x|] eqn:Hx; [|reflexivity].
    assert (Hin : "theme" ∈ view_fields) by (apply Hdom; rewrite Hx; eauto).
    apply list_elem_of_In in Hin. simpl in Hin.
    repeat (destruct Hin as [Hin|Hin]; [discriminate|]). destruct Hin.
Defined.

Lemma collect_updates_apiKey_given body v :
  body !! "apiKey" = Some v → v ≠ JStr "" →
  collect_updates body !! "apiKey" = Some v.
Proof.
  intros Hb Hv. unfold collect_updates. rewrite !copy_defined_lookup.
  simpl. rewrite Hb.
  assert (not_empty_string v = true) as ->.
  { destruct v as [| | |s| | |]; try done. simpl.
    apply negb_true_iff, String.eqb_neq. congruence. }
  by rewrite lookup_insert_eq.
Qed.

Lemma post_stores_given_key_aux body fs v :
  body !! "apiKey" = Some v → v ≠ JStr "" →
  loadConfig (post_api_config Fulfilled body fs).2 !! "apiKey"
  = Some (reread v).
Proof.
  intros Hb Hv. unfold post_api_config, saveConfig. simpl.
  assert (Hs : (collect_updates body ∪ loadConfig fs) !! "apiKey" = Some v).
  { apply lookup_union_Some_l. by apply collect_updates_apiKey_given. }
  rewrite loadConfig_written.
  - by rewrite Hs.
  - apply list_elem_of_In. simpl. auto.
  - by exists v.
Qed.



(** X13.  POST /api/config is idempotent on the file: sending the same
    body a second time leaves config.json as the first request left it. *)
Theorem post_api_config_idempotent body fs :
  let fs1 := (post_api_config Fulfilled body fs).2 in
  (post_api_config Fulfilled body fs1).2 = fs1.
Proof.
  intros fs1. subst fs1. unfold post_api_config, saveConfig. simpl.
  set (u := collect_updates body).
  rewrite insert_insert_eq. do 3 f_equal.
  apply map_eq. intros k. rewrite !lookup_fmap, !lookup_union.
  destruct (u !! k) as [x|] eqn:Hu.
  - by destruct (loadConfig _ !! k), (loadConfig fs !! k).
  - rewrite !(left_id_L None _).
    rewrite (loadConfig_reload _ _ fs).
    + destruct (loadConfig fs !! k) as [y|]; [|done]. simpl.
      by rewrite reread_idemp.
    + rewrite lookup_union, Hu. by rewrite (left_id_L None _).
    + intros j Hj. apply lookup_union_is_Some. right.
      by apply loadConfig_keys.
Qed.

Lemma masked_written x m : masked (Some x) = Some m → reread x = x.
Proof. unfold masked. destruct x; simpl; try done. Qed.

(** X14.  The configuration echoed by a successful POST /api/config is
    built from the values in memory, the one a GET returns right after
    from the file: they agree on the key, [apiKeySet], the voice, the
    model and [autoListen], up to what writing does to a value.  They
    differ on a nested record sent in the body: the POST echoes the record
    as sent, the GET returns it as written and completed with the
    defaults. *)
Theorem post_echo_and_next_get body fs payload view :
  (post_api_config Fulfilled body fs).1 = Normal (Some payload) →
  payload !! "config" = Some (JObj view) →
  ∃ view', get_api_config (post_api_config Fulfilled body fs).2 = Some view'
    ∧ view' !! "apiKey" = view !! "apiKey"
    ∧ view' !! "apiKeySet" = view !! "apiKeySet"
    ∧ (∀ k, k ∈ ["apiKey"; "apiKeySet"; "voiceId"; "model"; "autoListen"] →
         view' !! k = reread <$> view !! k)
    ∧ (∀ k D n, (k, D) ∈ nested_fields → body !! k = Some (JObj n) →
         view !! k = Some (JObj n)
         ∧ ∃ o, view' !! k = Some (JObj o)
             ∧ ∀ j, o !! j = or_default (reread <$> n !! j) (D !! j)).
Proof.
  unfold post_api_config, saveConfig. simpl.
  set (saved := collect_updates body ∪ loadConfig fs).
  set (fs' := <[CONFIG_PATH := JsonText (JObj (reread <$> saved))]> fs).
  intros Hpost Hcfg.
  destruct (masked_view saved) as [view0|] eqn:Hview; [|done].
  injection Hpost as <-. rewrite lookup_insert_ne in Hcfg by done.
  rewrite lookup_singleton_eq in Hcfg. injection Hcfg as ->.
  destruct (masked_view_fields _ _ Hview) as (Ha & Hset & Hbody & _).
  assert (Hsome : ∀ j, is_Some (DEFAULT_CONFIG !! j) → is_Some (saved !! j)).
  { intros j Hj. apply lookup_union_is_Some. right.
    by apply loadConfig_keys. }
  assert (Hobj : loadConfig fs' = merged (JObj (reread <$> saved))).
  { apply loadConfig_saved. }
  assert (Hscal : ∀ k, k ∈ scalar_fields →
            loadConfig fs' !! k = reread <$> saved !! k).
  { intros k Hk. destruct (Hsome k (default_scalar k Hk)) as [x Hx].
    rewrite Hobj.
    destruct (merged_scalar_all (JObj (reread <$> saved)) k Hk)
      as [-> | [_ ->]];
      change (own_props (JObj ?o)) with o;
      change (field (JObj ?o) k) with (o !! k);
      by rewrite lookup_fmap, Hx. }
  destruct (Hsome "apiKey") as [x Hx]; [by eexists|].
  assert (Hm : ∃ m, masked (Some x) = Some m).
  { unfold masked_view in Hview. rewrite Hx in Hview.
    destruct (masked (Some x)) as [m|]; [by exists m|done]. }
  destruct Hm as [m Hm]. pose proof (masked_written x m Hm) as Hrx.
  assert (Hkey : loadConfig fs' !! "apiKey" = saved !! "apiKey").
  { rewrite Hscal by (apply list_elem_of_In; simpl; auto).
    rewrite Hx. simpl. by rewrite Hrx. }
  unfold get_api_config.
  destruct (masked_view (loadConfig fs')) as [view'|] eqn:Hview'.
  2:{ unfold masked_view in Hview'. rewrite Hkey, Hx, Hm in Hview'. done. }
  destruct (masked_view_fields _ _ Hview') as (Ha' & Hset' & Hbody' & _).
  assert (Hka : view' !! "apiKey" = view !! "apiKey").
  { rewrite Hkey in Ha'. congruence. }
  assert (Hks : view' !! "apiKeySet" = view !! "apiKeySet").
  { by rewrite Hset, Hset', Hkey. }
  exists view'. split; [done|]. split; [done|]. split; [done|]. split.
  - intros k Hk. apply list_elem_of_In in Hk. simpl in Hk.
    destruct Hk as [<-|[<-|[<-|[<-|[<-|[]]]]]].
    + rewrite Hka. rewrite Hx, Hm in Ha. injection Ha as ->.
      unfold masked in Hm. by destruct (truthy (Some x)), x; simplify_eq.
    + by rewrite Hks, Hset.
    + rewrite Hbody, Hbody' by (apply list_elem_of_In; simpl; auto 10).
      apply Hscal, list_elem_of_In. simpl. auto.
    + rewrite Hbody, Hbody' by (apply list_elem_of_In; simpl; auto 10).
      apply Hscal, list_elem_of_In. simpl. auto.
    + rewrite Hbody, Hbody' by (apply list_elem_of_In; simpl; auto 10).
      apply Hscal, list_elem_of_In. simpl. auto.
  - intros k D n HD Hb.
    assert (Hin : k ∈ body_fields).
    { apply list_elem_of_In in HD. simpl in HD.
      destruct HD as [H|[H|[H|[]]]]; injection H as <- <-;
        apply list_elem_of_In; simpl; auto 10. }
    assert (Hs : saved !! k = Some (JObj n)).
    { apply lookup_union_Some_l. by rewrite collect_updates_body. }
    rewrite Hbody, Hbody' by done. split; [done|].
    rewrite Hobj, (merged_nested _ _ _ HD).
    change (field (JObj ?o) k) with (o !! k). rewrite lookup_fmap, Hs. simpl.
    eexists. split; [done|]. intros j. rewrite lookup_spread.
    change (own_props (JObj ?o)) with o. by rewrite lookup_fmap.
Qed.

Lemma post_echo_and_next_get_witness :
  let body : gmap string json :=
    {[ "voiceSettings" := JObj {[ "speed" := JNum 1.1%Q ]} ]} in
  ∃ view',
    get_api_config (post_api_config Fulfilled body ∅).2 = Some view'
    ∧ view' !! "model" = Some (JStr "eleven_flash_v2_5").
Proof.
  intros body.
  destruct (post_api_config Fulfilled body ∅).1 as [[payload|]|] eqn:Hp;
    [|discriminate Hp..].
  destruct (payload !! "config") as [[| | | | |view|]|] eqn:Hc;
    try (vm_compute in Hp; injection Hp as <-; discriminate Hc).
  destruct (post_echo_and_next_get body ∅ payload view Hp Hc)
    as (view' & Hg & _ & _ & Hs & _).
  exists view'. split; [exact Hg|].
  rewrite (Hs "model"); [|apply list_elem_of_In; simpl; auto].
  vm_compute in Hp. injection Hp as <-. vm_compute in Hc.
  injection Hc as <-. reflexivity.
Defined.

(** X15.  POST /api/test and POST /api/voices use the key of the body
    when it is truthy and the stored key otherwise; when neither is
    truthy they answer 400 "No API key configured" whatever the vendor
    would have said.  A key saved by POST /api/config is the one a later
    test without a key of its own uses. *)
Theorem test_and_voices_key_choice vendor body fs :
  (truthy (body !! "apiKey") = false →
   truthy (loadConfig fs !! "apiKey") = false →
   ∀ vendor',
     post_api_test vendor' body fs
     = Reply 400 {[ "error" := JStr "No API key configured" ]}
     ∧ post_api_voices vendor' body fs
       = Reply 400 {[ "error" := JStr "No API key configured" ]})
  ∧ (∀ k, body !! "apiKey" = Some k → truthy (Some k) = true →
     post_api_test vendor body fs = test_key vendor k
     ∧ post_api_voices vendor body fs = list_voices vendor k)
  ∧ (truthy (body !! "apiKey") = false →
     ∀ k, loadConfig fs !! "apiKey" = Some k → truthy (Some k) = true →
     post_api_test vendor body fs = test_key vendor k
     ∧ post_api_voices vendor body fs = list_voices vendor k)
  ∧ (truthy (body !! "apiKey") = false →
     ∀ saved_body k, saved_body !! "apiKey" = Some (JStr k) → k ≠ "" →
     post_api_test vendor body (post_api_config Fulfilled saved_body fs).2
     = test_key vendor (JStr k)).
Proof.
  assert (Hstored : truthy (body !! "apiKey") = false →
            ∀ fs0 k, loadConfig fs0 !! "apiKey" = Some k →
            truthy (Some k) = true →
            post_api_test vendor body fs0 = test_key vendor k
            ∧ post_api_voices vendor body fs0 = list_voices vendor k).
  { intros Hb fs0 k Hk Ht.
    unfold post_api_test, post_api_voices, request_key, or_undef.
    by rewrite Hb, Hk, Ht. }
  split; [|split; [|split]].
  - intros Hb Hs vendor'.
    unfold post_api_test, post_api_voices, request_key, or_undef.
    rewrite Hb. destruct (loadConfig fs !! "apiKey") as [k|]; [|done].
    by rewrite Hs.
  - intros k Hb Ht.
    unfold post_api_test, post_api_voices, request_key, or_undef.
    rewrite Hb, Ht. cbn iota. by rewrite Ht.
  - intros Hb k Hk Ht. by apply Hstored.
  - intros Hb saved_body k Hk Hne. apply Hstored; [done| |].
    + apply (post_stores_given_key_aux saved_body fs (JStr k)); [done|].
      congruence.
    + simpl. by apply negb_true_iff, String.eqb_neq.
Qed.



Lemma test_and_voices_key_choice_witness :
  post_api_test (λ _, Normal []) ∅ ∅
  = Reply 400 {[ "error" := JStr "No API key configured" ]}.
Proof.
  destruct (test_and_voices_key_choice (λ _, Normal []) ∅ ∅) as [H _].
  destruct (H eq_refl eq_refl (λ _, Normal [])) as [H1 _]. exact H1.
Defined.

(* ===================================================================== *)
(** ** More on the server                                                *)
(* ===================================================================== *)

(** X16.  The server serves tool calls exactly when a key is available,
    from a non-empty ELEVENLABS_API_KEY or from a truthy [apiKey] of
    config.json, and the transport connects; otherwise it exits with
    status 1.  Without config.json and without the variable it exits. *)
Theorem main_requires_a_key env fs connect :
  (main (getEffectiveConfig env fs) connect = Serving
   ↔ connect = Fulfilled
     ∧ ((∃ k, env !! "ELEVENLABS_API_KEY" = Some k ∧ k ≠ "")
        ∨ truthy (loadConfig fs !! "apiKey") = true))
  ∧ (main (getEffectiveConfig env fs) connect ≠ Serving →
     main (getEffectiveConfig env fs) connect = Exit 1)
  ∧ (fs !! CONFIG_PATH = None →
     env !! "ELEVENLABS_API_KEY" = None →
     main (getEffectiveConfig env fs) connect = Exit 1).
Proof.
  assert (Hkey : truthy (getEffectiveConfig env fs !! "apiKey") = true
            ↔ (∃ k, env !! "ELEVENLABS_API_KEY" = Some k ∧ k ≠ "")
              ∨ truthy (loadConfig fs !! "apiKey") = true).
  { unfold getEffectiveConfig. rewrite set_prop_lookup. unfold or_undef.
    destruct (env !! "ELEVENLABS_API_KEY") as [k|] eqn:He.
    - destruct (decide (k = "")) as [->|Hne].
      + simpl. split; [auto|]. intros [(k' & [= <-] & ?)|?]; done.
      + assert (Ht : truthy (JStr <$> Some k) = true).
        { simpl. by apply negb_true_iff, String.eqb_neq. }
        rewrite !Ht. split; [|done]. intros _. left. eauto.
    - simpl. split; [auto|]. intros [(k' & ? & ?)|?]; done. }
  split; [|split].
  - unfold main.
    destruct (truthy (getEffectiveConfig env fs !! "apiKey")) eqn:Ht; simpl.
    + destruct connect; split; try done.
      * intros _. split; [done|]. by apply Hkey.
      * by intros [? _].
      * by intros [? _].
    + split; [done|]. intros [_ H]. by apply Hkey in H.
  - unfold main.
    destruct (truthy (getEffectiveConfig env fs !! "apiKey")); simpl;
      [|done]. by destruct connect.
  - intros Hf He. unfold main.
    destruct (truthy (getEffectiveConfig env fs !! "apiKey")); [|done].
    destruct (proj1 Hkey eq_refl) as [(k & Hk & _)|Ht]; [congruence|].
    unfold loadConfig, loadConfig_try in Ht. by rewrite Hf in Ht.
Qed.

Lemma main_requires_a_key_witness :
  main (getEffectiveConfig ∅ ∅) Fulfilled = Exit 1.
Proof.
  destruct (main_requires_a_key ∅ ∅ Fulfilled) as (_ & _ & H).
  apply H; reflexivity.
Defined.

(** X17.  In every reachable state each submitted item is in exactly one
    place: the submitted items are those already settled, then the one in
    flight if any, then those waiting, in this order and without
    repetition.  So results come in the order of submission, no item is
    settled twice, and when no loop is running every submitted item has
    been settled. *)
Theorem every_request_is_accounted_for cfg d ins :
  let st := run (init cfg d) ins in
  submitted (trace st)
  = (settled (trace st)).*1 ++ (in_flight <$> loops st) ++ ttsQueue st
  ∧ NoDup (submitted (trace st))
  ∧ (isProcessingQueue st = false →
     (settled (trace st)).*1 = submitted (trace st)).
Proof.
  intros st. pose proof (reachable_inv cfg d ins) as Hinv. fold st in Hinv.
  assert (Heq : submitted (trace st)
     = (settled (trace st)).*1 ++ (in_flight <$> loops st) ++ ttsQueue st).
  { rewrite (inv_fifo _ Hinv), (inv_settled _ Hinv). by rewrite <- app_assoc. }
  split; [done|]. split; [by apply submitted_NoDup|].
  intros Hf. rewrite Heq.
  destruct (inv_guard _ Hinv) as [(-> & _ & ->) | (p & _ & ?)]; [|congruence].
  simpl. by rewrite app_nil_r.
Qed.

Lemma every_request_is_accounted_for_witness :
  let st := run (init ∅ ∅)
              [Speak "a"; Settle 0 (Failed "quota") "t" Fulfilled] in
  (settled (trace st)).*1 = submitted (trace st).
Proof.
  intros st.
  destruct (every_request_is_accounted_for ∅ ∅
              [Speak "a"; Settle 0 (Failed "quota") "t" Fulfilled])
    as (_ & _ & H).
  apply H. reflexivity.
Defined.

Lemma step_effect st i : inv st → effect st (step st i).
Proof.
  intros [Hg _ _ _ _ _]. destruct st as [c q f l dk tr n]. simpl in *.
  destruct i as [t | now w | k r now w]; simpl.
  - unfold queueTTS, processTTSQueue, loop_head; simpl.
    destruct Hg as [(-> & -> & ->) | (p & -> & ->)]; simpl;
      apply Quiet; simpl; by split_trace.
  - unfold listen. destruct (negb (truthy (c !! "autoListen"))); simpl.
    + apply Quiet; simpl; by split_trace.
    + destruct w as [|e2|e2]; simpl; apply Quiet; simpl; try by split_trace.
      all: intros path Hne; by apply lookup_insert_ne.
  - unfold resume; simpl.
    destruct Hg as [(-> & -> & ->) | (p & -> & ->)]; simpl.
    { by apply Quiet. }
    destruct k as [|k]; simpl; [|by apply Quiet].
    destruct p as [item|item], r as [|e|e]; simpl.
    + apply (Starts _ _ item); simpl; by split_trace.
    + apply (Rejects _ _ item e); unfold loop_head, catch_item; simpl;
        destruct q; simpl; try (left; split); by split_trace.
    + apply (Rejects _ _ item e); unfold loop_head, catch_item; simpl;
        destruct q; simpl; try (left; split); by split_trace.
    + destruct w as [|e2|e2]; simpl.
      * apply (Resolves _ _ item now); unfold loop_head; simpl;
          destruct q; simpl; by split_trace.
      * apply (Rejects _ _ item e2); unfold loop_head, catch_item; simpl;
          destruct q; simpl; try (right; split); by split_trace.
      * apply (Rejects _ _ item e2); unfold loop_head, catch_item; simpl;
          destruct q; simpl; try (right; split); try by split_trace.
        all: intros path Hne; by apply lookup_insert_ne.
    + apply (Rejects _ _ item e); unfold loop_head, catch_item; simpl;
        destruct q; simpl; try (left; split); by split_trace.
    + apply (Rejects _ _ item e); unfold loop_head, catch_item; simpl;
        destruct q; simpl; try (left; split); by split_trace.
Qed.

Lemma init_results cfg d : results_inv d (init cfg d).
Proof. split; simpl; done. Qed.

Lemma completion_is_not_signal : completionPath ≠ signalPath.
Proof. done. Qed.

Lemma effect_results d st st' :
  effect st st' → results_inv d st → results_inv d st'.
Proof.
  intros He [Hp Hr Hf Ho].
  destruct He as [Hset Hpl Hco Hlo Hd | item Hlo Hpl Hco Hset Hd
                 | item e Hlo Hset Hpl Hd | item now Hlo0 Hlo Hset Hpl Hco Hd].
  - split.
    + rewrite Hlo, Hpl. done.
    + rewrite Hset, Hpl. done.
    + rewrite Hco, Hd by apply completion_is_not_signal. done.
    + intros path H1 H2. rewrite Hd by done. by apply Ho.
  - split.
    + rewrite Hlo, Hpl. intros i Hi. apply list_elem_of_singleton in Hi as ->.
      apply elem_of_app. right. constructor.
    + rewrite Hset, Hpl. eapply Forall_impl; [exact Hr|].
      intros p [[? ?]|?]; [left|by right]. split; [done|].
      apply elem_of_app. by left.
    + rewrite Hco, Hd. done.
    + rewrite Hd. done.
  - split.
    + rewrite Hlo. intros i Hi. by apply elem_of_nil in Hi.
    + rewrite Hset, Hpl. apply Forall_app. split; [done|].
      constructor; [|constructor]. right. by exists e.
    + destruct Hd as [[-> ->] | [-> _]]; [done|].
      intros H. by apply app_nil in H as [_ ?].
    + intros path H1 H2. destruct Hd as [[_ ->] | [_ Hd]]; [by apply Ho|].
      rewrite Hd by done. by apply Ho.
  - split.
    + rewrite Hlo. intros i Hi. by apply elem_of_nil in Hi.
    + rewrite Hset, Hpl. apply Forall_app. split; [done|].
      constructor; [|constructor]. left. split; [done|]. simpl.
      apply Hp. rewrite Hlo0. constructor.
    + rewrite Hco. intros H. by apply app_nil in H as [_ ?].
    + intros path H1 H2. rewrite Hd, lookup_insert_ne by done. by apply Ho.
Qed.

Lemma run_results d ins : ∀ st,
  inv st → results_inv d st → results_inv d (run st ins).
Proof.
  induction ins as [|i ins IH]; intros st Hinv Hr; [done|].
  simpl. apply IH; [by apply step_inv|].
  eapply effect_results; [by apply step_effect|done].
Qed.

Lemma reachable_results cfg d ins : results_inv d (run (init cfg d) ins).
Proof. apply run_results; [apply init_inv | apply init_results]. Qed.





Lemma step_signal_file st i :
  ¬ is_listen i ∨ truthy (config st !! "autoListen") = false →
  disk (step st i) !! signalPath = disk st !! signalPath.
Proof.
  intros H. destruct st as [c q f l dk tr n].
  destruct i as [t | now w | k r now w]; simpl in *.
  - unfold queueTTS, processTTSQueue, loop_head; simpl.
    destruct (f || bool_decide (q ++ [QueueItem t n] = [])); simpl; [done|].
    by destruct (q ++ [QueueItem t n]).
  - destruct H as [H|H]; [done|]. unfold listen. by rewrite H.
  - unfold resume; simpl.
    destruct (l !! k) as [[item|item]|]; [| |done];
      destruct r as [|e|e]; simpl; try destruct w as [|e'|e'];
      unfold loop_head, catch_item; simpl; try destruct q; simpl;
      try done; by rewrite lookup_insert_ne.
Qed.

Lemma run_signal_file ins : ∀ st,
  Forall (λ i, ¬ is_listen i) ins
  ∨ truthy (config st !! "autoListen") = false →
  disk (run st ins) !! signalPath = disk st !! signalPath.
Proof.
  induction ins as [|i ins IH]; intros st H; [done|].
  simpl. rewrite IH.
  - apply step_signal_file. destruct H as [H|H]; [|by right].
    left. by apply Forall_inv in H.
  - rewrite step_config. destruct H as [H|H]; [|by right].
    left. by apply Forall_inv_tail in H.
Qed.

(** X20.  The server writes two files and no other: every other path,
    config.json among them, is as at startup in every reachable state.
    The listen-signal file changes through [listen] calls only, and never
    when [autoListen] is falsy. *)
Theorem server_writes_only_its_signal_files cfg d ins :
  let st := run (init cfg d) ins in
  (∀ path, path ≠ completionPath → path ≠ signalPath →
     disk st !! path = d !! path)
  ∧ disk st !! CONFIG_PATH = d !! CONFIG_PATH
  ∧ (Forall (λ i, ¬ is_listen i) ins ∨ truthy (cfg !! "autoListen") = false →
     disk st !! signalPath = d !! signalPath).
Proof.
  intros st. pose proof (reachable_results cfg d ins) as [_ _ _ Ho].
  split; [done|]. split; [by apply Ho|].
  subst st. intros H. by rewrite run_signal_file.
Qed.

Lemma server_writes_only_its_signal_files_witness :
  disk (run (init {[ "autoListen" := JBool false ]} ∅)
          [Listen "t" Fulfilled; Speak "a"])
    !! signalPath = None.
Proof.
  destruct (server_writes_only_its_signal_files
              {[ "autoListen" := JBool false ]} ∅
              [Listen "t" Fulfilled; Speak "a"]) as (_ & _ & H).
  rewrite H; [reflexivity|]. right. reflexivity.
Defined.

Lemma filter_listen_returned tr r :
  filter speech_event (tr ++ [ListenReturned r]) = filter speech_event tr.
Proof.
  rewrite filter_app, filter_cons_False by (simpl; tauto).
  by rewrite filter_nil, app_nil_r.
Qed.

Lemma listen_speech_view st now w :
  speech_view (step st (Listen now w)) = speech_view st.
Proof.
  destruct st as [c q f l dk tr n]. unfold speech_view. simpl.
  unfold listen. destruct (negb (truthy (c !! "autoListen"))); simpl.
  - by rewrite filter_listen_returned.
  - destruct w as [|e2|e2]; simpl; rewrite filter_listen_returned;
      by rewrite ?lookup_insert_ne.
Qed.

Lemma step_speech_view st1 st2 i :
  ¬ is_listen i → speech_view st1 = speech_view st2 →
  speech_view (step st1 i) = speech_view (step st2 i).
Proof.
  intros Hi Hv. destruct st1 as [c1 q f l d1 tr1 n].
  destruct st2 as [c2 q2 f2 l2 d2 tr2 n2]. unfold speech_view in *.
  simpl in Hv. injection Hv as -> -> -> -> Htr Hd.
  destruct i as [t | now w | k r now w]; [|done|]; simpl.
  - unfold queueTTS, processTTSQueue, loop_head; simpl.
    destruct (f2 || bool_decide (q2 ++ [QueueItem t n2] = [])); simpl.
    + by rewrite !filter_app, Htr, Hd.
    + destruct (q2 ++ [QueueItem t n2]); simpl;
        by rewrite ?filter_app, Htr, Hd.
  - unfold resume; simpl.
    destruct (l2 !! k) as [[item|item]|]; simpl;
      [| |by rewrite Htr, Hd];
      destruct r as [|e|e]; simpl; try destruct w as [|e'|e'];
      unfold loop_head, catch_item; simpl; try destruct q2; simpl;
      rewrite ?filter_app, ?Htr, ?Hd, ?lookup_insert_eq; try done.
Qed.

(** X21.  Calls of [listen] do not disturb the speech queue: the queue,
    the flag, the suspended loop, the number of promises made, the events
    of the queue and the playback-complete file are, after any inputs,
    what they are after the same inputs without the [listen] calls. *)
Theorem listen_does_not_disturb_speech st ins :
  speech_view (run st ins)
  = speech_view (run st (filter (λ i, ¬ is_listen i) ins)).
Proof.
  assert (Hgen : ∀ st1 st2, speech_view st1 = speech_view st2 →
            speech_view (run st1 ins)
            = speech_view (run st2 (filter (λ i, ¬ is_listen i) ins))).
  { induction ins as [|i ins IH]; intros st1 st2 Hv; [done|].
    destruct (decide (is_listen i)) as [Hl|Hl].
    - rewrite filter_cons_False by tauto. simpl. apply IH.
      destruct i as [|now w|]; try done. by rewrite listen_speech_view.
    - rewrite filter_cons_True by done. simpl. apply IH.
      by apply step_speech_view. }
  by apply Hgen.
Qed.

(** X22.  Whether [listen] is enabled is decided by config.json alone, as
    read at startup, whatever the environment variables: with a falsy
    [autoListen] there every call answers that it is disabled and writes
    nothing; with a truthy one a call whose write goes through writes the
    record.  Without config.json it is enabled. *)
Theorem listen_follows_config_json env d ins now w :
  let st := run (boot env d) ins in
  let st' := step st (Listen now w) in
  (truthy (loadConfig d !! "autoListen") = false →
     listened (trace st')
     = listened (trace st) ++ [ToolResult "Auto-listen is disabled" false]
     ∧ disk st' = disk st)
  ∧ (truthy (loadConfig d !! "autoListen") = true → w = Fulfilled →
     listened (trace st')
     = listened (trace st) ++ [ToolResult "Listening for user input..." false]
     ∧ disk st' !! signalPath = Some (JsonText (listenSignal now)))
  ∧ (d !! CONFIG_PATH = None → truthy (loadConfig d !! "autoListen") = true).
Proof.
  intros st st'.
  assert (Hc : config st !! "autoListen" = loadConfig d !! "autoListen").
  { unfold st. rewrite run_config. apply effective_autoListen. }
  split; [|split].
  - intros Hoff. subst st'. simpl. unfold listen. rewrite Hc, Hoff. simpl.
    destruct st. simpl. split; [by split_trace|done].
  - intros Hon ->. subst st'. simpl. unfold listen. rewrite Hc, Hon. simpl.
    destruct st. simpl. split; [by split_trace|apply lookup_insert_eq].
  - intros Hf. unfold loadConfig, loadConfig_try. by rewrite Hf.
Qed.

Lemma listen_follows_config_json_witness :
  let d : gmap string file :=
    {[ CONFIG_PATH := JsonText (JObj {[ "autoListen" := JNull ]}) ]} in
  disk (step (boot {[ "ELEVENLABS_API_KEY" := "sk_env" ]} d)
             (Listen "t" Fulfilled)) = d.
Proof.
  intros d.
  destruct (listen_follows_config_json {[ "ELEVENLABS_API_KEY" := "sk_env" ]}
              d [] "t" Fulfilled) as [H _].
  destruct H as [_ H]; [reflexivity|exact H].
Defined.
